(** * Café Serenity service worker: cache lifecycle and request routing

    A shallow embedding of the service worker of the site (the second
    document of [src/unnamed/part_000], lines 469-704): the [install],
    [activate] and [fetch] event handlers, over a model of the host's
    Cache Storage and network primitives. *)

From stdpp Require Import gmap strings list fin_maps.
From Stdlib Require Import Ascii String.

Open Scope string_scope.
Open Scope list_scope.

(** ** Data model *)

(** A parsed URL: what [new URL(request.url)] exposes to the worker.  The
    handlers only read [origin]; the rest of the URL is kept as [path]. *)
Record URL := mkURL { origin : string; path : string }.

#[global] Instance URL_eq_dec : EqDecision URL.
Proof. solve_decision. Defined.

#[global] Instance URL_countable : Countable URL.
Proof.
  refine (inj_countable' (fun u => (origin u, path u))
                         (fun p => mkURL (fst p) (snd p)) _).
  intros [o p]; reflexivity.
Defined.

(** The fields of a [Request] the worker looks at.  [mode] and
    [destination] are JavaScript strings and are compared as such. *)
Record Request := mkRequest {
  url : URL;
  method : string;
  mode : string;
  destination : string
}.

#[global] Instance Request_eq_dec : EqDecision Request.
Proof. solve_decision. Defined.

Record Response := mkResponse {
  status : nat;
  statusText : string;
  headers : list (string * string);
  body : string
}.

#[global] Instance Response_eq_dec : EqDecision Response.
Proof. solve_decision. Defined.

(** [response.ok]: the status is in the range 200-299. *)
Definition ok (r : Response) : bool :=
  (200 <=? status r)%nat && (status r <=? 299)%nat.

(** [response.headers.get(name)]. *)
Fixpoint header_get (name : string) (hs : list (string * string)) : option string :=
  match hs with
  | [] => None
  | (k, v) :: hs' => if String.eqb k name then Some v else header_get name hs'
  end.

(** [new Response(body, { status, statusText, headers })]. *)
Definition new_Response (b : string) (st : nat) (stt : string)
    (hs : list (string * string)) : Response :=
  {| status := st; statusText := stt; headers := hs; body := b |}.


(** [new Request(url)]: the defaults of the Request constructor. *)
Definition new_Request (u : URL) : Request :=
  {| url := u; method := "GET"; mode := "cors"; destination := "" |}.

(** [string.startsWith(prefix)]. *)
Definition startsWith (s p : string) : bool := String.prefix p s.

(** ** The host: Cache Storage, network, trace of host calls *)

(** Modelled from the spec: the Request Descriptor under which a response
    is stored and looked up (section 3, "effectively (method, URL, relevant
    headers)"); the host's key normalisation is not part of the repository.
    Headers are left out: the worker never sets any on a request. *)
Definition Descriptor : Type := string * URL.

Definition descriptor (r : Request) : Descriptor := (method r, url r).

(** One namespace: its entries.  The storage keeps the namespaces in the
    order in which they were created, which is the order in which
    [caches.match] and [caches.keys] go through them. *)
Abbreviation Cache := (gmap Descriptor Response).
Abbreviation CacheStorage := (list (string * Cache)).

(** What a handler passes to [caches.match]: a Request object or a URL
    string (resolved against the worker's own location). *)
Inductive RequestInfo :=
| ByRequest (r : Request)
| ByUrl (s : string).

(** The calls a handler makes on the host, in the order it makes them. *)
Inductive Event :=
| EvFetch (r : Request)
| EvOpen (name : string)
| EvCacheMatch (name : string) (r : Request)
| EvCachesMatch (q : RequestInfo)
| EvPut (name : string) (r : Request) (resp : Response)
| EvAddAll (name : string) (urls : list URL)
| EvKeys
| EvDelete (name : string)
| EvClaim
| EvSkipWaiting
| EvConsoleError (msg : string).

#[global] Instance RequestInfo_eq_dec : EqDecision RequestInfo.
Proof. solve_decision. Defined.

#[global] Instance Event_eq_dec : EqDecision Event.
Proof. solve_decision. Defined.

(** A [cache.put] whose promise the handler does not await: it has been
    issued, and lands in the store some time after the handler went on. *)
Record PendingPut := mkPending {
  p_cache : string;
  p_key : Descriptor;
  p_response : Response
}.

Record World := mkWorld {
  caches : CacheStorage;
  pending : list PendingPut;
  fetches : nat;
  trace : list Event
}.

Definition log (e : Event) (w : World) : World :=
  {| caches := caches w; pending := pending w;
     fetches := fetches w; trace := trace w ++ [e] |}.

Definition with_caches (cs : CacheStorage) (w : World) : World :=
  {| caches := cs; pending := pending w;
     fetches := fetches w; trace := trace w |}.

(** *** Pure operations on the storage

    The Cache Storage is the host's, not the repository's; the operations
    follow the contract the spec gives for it in section 4.1: [open] is
    create-if-absent and idempotent, [put] overwrites the entry of its
    descriptor, [match] gives the stored response or nothing, and
    [delete] removes a namespace with its entries. *)

Fixpoint ns_find (name : string) (cs : CacheStorage) : option Cache :=
  match cs with
  | [] => None
  | (n, c) :: cs' => if String.eqb n name then Some c else ns_find name cs'
  end.

(** The entry stored under [k] in the namespace [name], if any. *)
Definition ns_lookup (cs : CacheStorage) (name : string) (k : Descriptor)
  : option Response :=
  match ns_find name cs with
  | Some c => c !! k
  | None => None
  end.

(** Create-if-absent: a new namespace goes to the end of the list. *)
Definition store_open (name : string) (cs : CacheStorage) : CacheStorage :=
  match ns_find name cs with
  | Some _ => cs
  | None => cs ++ [(name, ∅)]
  end.

(** A write through a handle on [name]: overwrites the entry of the key.
    A handle whose namespace has been deleted writes nowhere visible. *)
Fixpoint store_put (name : string) (k : Descriptor) (r : Response)
    (cs : CacheStorage) : CacheStorage :=
  match cs with
  | [] => []
  | (n, c) :: cs' =>
      if String.eqb n name then (n, <[k := r]> c) :: cs'
      else (n, c) :: store_put name k r cs'
  end.

(** The first namespace, in creation order, that has an entry for [k]. *)
Fixpoint store_match (k : Descriptor) (cs : CacheStorage) : option Response :=
  match cs with
  | [] => None
  | (_, c) :: cs' =>
      match c !! k with
      | Some r => Some r
      | None => store_match k cs'
      end
  end.

Definition store_keys (cs : CacheStorage) : list string := map fst cs.

Definition store_delete (name : string) (cs : CacheStorage) : CacheStorage :=
  List.filter (fun nc => negb (String.eqb (fst nc) name)) cs.

(** The storage after the deletions of [names], one after the other. *)
Definition delete_all (names : list string) (cs : CacheStorage) : CacheStorage :=
  fold_left (fun cs n => store_delete n cs) names cs.

(** A detached put that has landed. *)
Definition land (p : PendingPut) (cs : CacheStorage) : CacheStorage :=
  store_put (p_cache p) (p_key p) (p_response p) cs.

(** Detached puts complete in an order of their own, and for one key the
    last to complete wins (section 4.1): the storage once the puts of
    [order] have landed, one after the other. *)
Definition settled_in (order : list PendingPut) (cs : CacheStorage)
  : CacheStorage :=
  fold_left (fun cs p => land p cs) order cs.

(** A completion order of the puts in flight: any arrangement of them. *)
Definition completion_order (order : list PendingPut) (w : World) : Prop :=
  order ≡ₚ pending w.


(** The world once the puts in flight have landed in the order [order]. *)
Definition landed_in (order : list PendingPut) (w : World) : World :=
  {| caches := settled_in order (caches w); pending := [];
     fetches := fetches w; trace := trace w |}.

(** No put in flight would leave another response than [r] in the entry
    of [k] in the namespace [name]: whichever of them is the last to
    complete, the entry is the same. *)
Definition unrivalled (name : string) (k : Descriptor) (r : Response)
    (w : World) : Prop :=
  ∀ q, q ∈ pending w → p_cache q = name → p_key q = k → p_response q = r.

(** *** What [cache.put] accepts

    Modelled from the host's Cache interface, which is not part of the
    repository: [cache.put(request, response)] rejects with a TypeError,
    and stores nothing, when the method of the request is not GET, when
    the status of the response is 206, or when the response has a [Vary]
    header one of whose values is [*].  (The scheme of the URL has to be
    http or https as well, which a request of the worker's own origin
    has.) *)

Definition lower (c : ascii) : ascii :=
  let n := nat_of_ascii c in
  if (65 <=? n)%nat && (n <=? 90)%nat then ascii_of_nat (n + 32) else c.

(** Header names are compared without regard to case. *)
Fixpoint lowercase (s : string) : string :=
  match s with
  | EmptyString => EmptyString
  | String c s' => String (lower c) (lowercase s')
  end.

(** The values of a header field: split at the commas, the spaces and
    tabs around each value dropped. *)
Definition is_ows (c : ascii) : bool :=
  Ascii.eqb c (ascii_of_nat 32) || Ascii.eqb c (ascii_of_nat 9).

Fixpoint split_commas (s : list ascii) : list (list ascii) :=
  match s with
  | [] => [[]]
  | c :: s' =>
      if Ascii.eqb c (ascii_of_nat 44) then [] :: split_commas s'
      else match split_commas s' with
           | cur :: rest => (c :: cur) :: rest
           | [] => [[c]]
           end
  end.

Fixpoint strip_start (s : list ascii) : list ascii :=
  match s with
  | [] => []
  | c :: s' => if is_ows c then strip_start s' else s
  end.

Definition strip (s : list ascii) : list ascii :=
  rev (strip_start (rev (strip_start s))).

Definition field_values (v : string) : list (list ascii) :=
  map strip (split_commas (list_ascii_of_string v)).

(** The response has a [Vary] header with the value [*]. *)
Definition vary_star (r : Response) : bool :=
  existsb
    (fun h =>
       String.eqb (lowercase (fst h)) "vary"
       && existsb (fun v => bool_decide (v = [ascii_of_nat 42]))
                  (field_values (snd h)))
    (headers r).

Definition storable (request : Request) (response : Response) : bool :=
  String.eqb (method request) "GET"
  && negb (Nat.eqb (status response) 206)
  && negb (vary_star response).

(** Reading the trace of a run of the fetch handler, whose puts are all
    detached: the puts that were called, and the writes that they leave
    in flight. *)
Definition is_put (e : Event) : bool :=
  match e with
  | EvPut _ _ _ => true
  | _ => false
  end.

Definition puts_of (t : list Event) : list Event := List.filter is_put t.

Definition in_flight (e : Event) : list PendingPut :=
  match e with
  | EvPut name q r =>
      if storable q r then [mkPending name (descriptor q) r] else []
  | _ => []
  end.

(** ** Asynchronous computations

    An [async] body either runs to a value or throws; a rejected promise
    that is awaited throws at the [await].  The host calls below are each
    awaited where the source awaits them. *)

Inductive Error :=
| NetworkError
| TypeError.

Inductive Completion (A : Type) :=
| Normal (a : A)
| Thrown (e : Error).
Arguments Normal {A} a.
Arguments Thrown {A} e.

Definition Async (A : Type) : Type := World -> Completion A * World.

Definition ret {A} (a : A) : Async A := fun w => (Normal a, w).

Definition bind {A B} (m : Async A) (f : A -> Async B) : Async B :=
  fun w =>
    match m w with
    | (Normal a, w') => f a w'
    | (Thrown e, w') => (Thrown e, w')
    end.

Definition throw {A} (e : Error) : Async A := fun w => (Thrown e, w).

(** [try { m } catch (error) { h error }]. *)
Definition try_catch {A} (m : Async A) (h : Error -> Async A) : Async A :=
  fun w =>
    match m w with
    | (Normal a, w') => (Normal a, w')
    | (Thrown e, w') => h e w'
    end.

Declare Scope async_scope.
Delimit Scope async_scope with async.
Notation "x <- m ;; k" := (bind m (fun x => k))
  (at level 100, m at next level, right associativity) : async_scope.
Notation "m ;; k" := (bind m (fun _ => k))
  (at level 100, right associativity) : async_scope.
Open Scope async_scope.

(** [Promise.all(xs.map(f))], the calls issued from left to right. *)
Fixpoint all_map {A B} (f : A -> Async B) (xs : list A) : Async (list B) :=
  match xs with
  | [] => ret []
  | x :: xs' => y <- f x ;; ys <- all_map f xs' ;; ret (y :: ys)
  end.

(** ** The worker's constants (sw.js, lines 474-499) *)

Definition CACHE_NAME : string := "cafe-serenity-v1.0.0".
Definition OFFLINE_URL : string := "/offline.html".
Definition IMAGE_CACHE_NAME : string := "cafe-serenity-images-v1.0.0".

(** The double quote, for the attribute values of the placeholder. *)
Definition dq : string := String (ascii_of_nat 34) EmptyString.
Definition nl : string := String (ascii_of_nat 10) EmptyString.
Definition quoted (s : string) : string := dq +:+ s +:+ dq.

(** The template literal of the image placeholder (lines 612-615), with
    its line breaks and indentation. *)
Definition placeholder_svg : string :=
  "<svg width=" +:+ quoted "400" +:+ " height=" +:+ quoted "300"
  +:+ " xmlns=" +:+ quoted "http://www.w3.org/2000/svg" +:+ ">" +:+ nl
  +:+ "                            <rect width=" +:+ quoted "100%"
  +:+ " height=" +:+ quoted "100%" +:+ " fill=" +:+ quoted "#e7e5e4"
  +:+ "/>" +:+ nl
  +:+ "                            <text x=" +:+ quoted "50%"
  +:+ " y=" +:+ quoted "50%" +:+ " font-family=" +:+ quoted "sans-serif"
  +:+ " font-size=" +:+ quoted "18" +:+ " fill=" +:+ quoted "#78716c"
  +:+ " text-anchor=" +:+ quoted "middle" +:+ " dy=" +:+ quoted "0.3em"
  +:+ ">画像を読み込めません</text>" +:+ nl
  +:+ "                        </svg>".

(** The three synthesized responses of the fetch handler. *)
Definition offline_text_response : Response :=
  new_Response "オフラインです" 503 "Service Unavailable"
    [("Content-Type", "text/plain; charset=utf-8")].

Definition placeholder_response : Response :=
  new_Response placeholder_svg 200 ""
    [("Content-Type", "image/svg+xml"); ("Cache-Control", "no-store")].

Definition unavailable_response : Response :=
  new_Response "リソースを取得できません" 503 "Service Unavailable"
    [("Content-Type", "text/plain; charset=utf-8")].

(** What a fetch event ends in: the listener returns without calling
    [event.respondWith] and the browser handles the request itself, or it
    hands over a promise, which settles to a response or rejects. *)
Inductive FetchOutcome :=
| PassThrough
| RespondWith (c : Completion Response).

(** The three categories of same-origin requests, in the order in which
    the listener tests for them. *)
Inductive Category :=
| Navigation
| Image
| Other.

Definition classify (request : Request) : Category :=
  if String.eqb (mode request) "navigate" then Navigation
  else if String.eqb (destination request) "image" then Image
  else Other.

(** ** Host calls and event handlers *)

Section Worker.

(** The worker's own [location.origin]. *)
Variable location_origin : string.

(** The network: the answer to the [n]-th fetch the worker issues, for
    the request it is issued for; [None] is a network error (the promise
    of [fetch] rejects). *)
Variable net : nat -> Request -> option Response.

(** A URL string of the worker's own site, resolved against its
    location. *)
Definition resolve (s : string) : URL :=
  {| origin := location_origin; path := s |}.

Definition request_of (q : RequestInfo) : Request :=
  match q with
  | ByRequest r => r
  | ByUrl s => new_Request (resolve s)
  end.

(** The Static Manifest (lines 478-496); the one absolute URL is given
    with its origin split off. *)
Definition STATIC_CACHE_URLS : list URL :=
  [ resolve "/";
    resolve "/index.html";
    resolve "/css/critical.css";
    resolve "/css/main.css";
    resolve "/js/main.js";
    resolve "/manifest.json";
    resolve "/offline.html";
    mkURL "https://fonts.googleapis.com"
      "/css2?family=Noto+Sans+JP:wght@300;400;500;700&family=Playfair+Display:wght@400;500;600;700&display=swap";
    resolve "/images/icons/favicon.ico";
    resolve "/images/icons/favicon-96x96.png";
    resolve "/images/icons/apple-touch-icon.png";
    resolve "/images/icons/web-app-manifest-192x192.png";
    resolve "/images/icons/web-app-manifest-512x512.png";
    resolve "/images/hero/hero-main.png" ].

(** *** Host calls *)

Definition emit (e : Event) : Async unit := fun w => (Normal tt, log e w).

(** [await fetch(request)]. *)
Definition fetch (request : Request) : Async Response :=
  fun w =>
    let w' := log (EvFetch request)
                {| caches := caches w; pending := pending w;
                   fetches := S (fetches w); trace := trace w |} in
    match net (fetches w) request with
    | Some r => (Normal r, w')
    | None => (Thrown NetworkError, w')
    end.

(** [await caches.open(name)]; the handle is the name. *)
Definition caches_open (name : string) : Async string :=
  fun w =>
    (Normal name, log (EvOpen name) (with_caches (store_open name (caches w)) w)).

(** [await cache.match(request)]. *)
Definition cache_match (cache : string) (request : Request)
  : Async (option Response) :=
  fun w =>
    (Normal (ns_lookup (caches w) cache (descriptor request)),
     log (EvCacheMatch cache request) w).

(** [await caches.match(q)]: over every namespace. *)
Definition caches_match (q : RequestInfo) : Async (option Response) :=
  fun w =>
    (Normal (store_match (descriptor (request_of q)) (caches w)),
     log (EvCachesMatch q) w).

(** [await cache.put(request, response)]: the write, or the TypeError of
    a put that the host does not accept, thrown at the [await]. *)
Definition cache_put (cache : string) (request : Request)
    (response : Response) : Async unit :=
  fun w =>
    if storable request response then
      (Normal tt,
       log (EvPut cache request response)
         (with_caches (store_put cache (descriptor request) response (caches w)) w))
    else (Thrown TypeError, log (EvPut cache request response) w).

(** [cache.put(request, response)] without [await]: the put is issued
    and the body goes on; the write lands later.  The promise of a put
    that the host does not accept rejects with nobody waiting for it:
    nothing is thrown in the body and nothing is ever written. *)
Definition cache_put_detached (cache : string) (request : Request)
    (response : Response) : Async unit :=
  fun w =>
    (Normal tt,
     log (EvPut cache request response)
       {| caches := caches w;
          pending :=
            pending w ++
              (if storable request response
               then [mkPending cache (descriptor request) response]
               else []);
          fetches := fetches w; trace := trace w |}).

(** A fetch whose failure is kept as a value. *)
Definition try_fetch (request : Request) : Async (option Response) :=
  try_catch (r <- fetch request ;; ret (Some r)) (fun _ => ret None).

(** The entries [addAll] writes: one per request, provided every fetch
    answered and answered with an ok status. *)
Fixpoint addAll_entries (reqs : list Request) (rs : list (option Response))
  : option (list (Request * Response)) :=
  match reqs, rs with
  | [], [] => Some []
  | q :: reqs', Some r :: rs' =>
      if ok r then
        match addAll_entries reqs' rs' with
        | Some es => Some ((q, r) :: es)
        | None => None
        end
      else None
  | _, _ => None
  end.

(** Modelled from the spec: [cache.addAll], a host call of which the
    repository has only the call site; section 4.2 has it as an
    enumerated write-all that is all-or-nothing: every URL is fetched,
    and either all the responses are stored or the call fails and
    stores none.  A host also rejects the call for a list with a
    repeated URL and for an answer that [cache.put] would not accept
    ([addAll_accepts] below); section 4.2 does not tell these cases
    apart and neither does this definition, which takes the contract as
    the section gives it. *)
Definition cache_addAll (cache : string) (urls : list URL) : Async unit :=
  emit (EvAddAll cache urls) ;;
  rs <- all_map try_fetch (map new_Request urls) ;;
  match addAll_entries (map new_Request urls) rs with
  | Some es =>
      fun w =>
        (Normal tt,
         with_caches
           (fold_left (fun cs e => store_put cache (descriptor (fst e)) (snd e) cs)
              es (caches w)) w)
  | None => throw TypeError
  end.

(** What the host's [addAll] requires of each answer: an ok status, and
    what [cache.put] requires of a response. *)
Definition addAll_accepts (r : Response) : bool :=
  ok r && negb (Nat.eqb (status r) 206) && negb (vary_star r).

(** [await caches.keys()]. *)
Definition caches_keys : Async (list string) :=
  fun w => (Normal (store_keys (caches w)), log EvKeys w).

(** [caches.delete(name)]: resolves to whether the namespace existed. *)
Definition caches_delete (name : string) : Async bool :=
  fun w =>
    (Normal (bool_decide (is_Some (ns_find name (caches w)))),
     log (EvDelete name) (with_caches (store_delete name (caches w)) w)).

Definition clients_claim : Async unit := emit EvClaim.
Definition console_error (msg : string) : Async unit := emit (EvConsoleError msg).

(** *** install (lines 502-522) *)

(** The async function handed to [event.waitUntil], from its first
    [await] on (lines 506-515): [cache] is what [caches.open] resolved
    to. *)
Definition install_body (manifest : list URL) (cache : string) : Async unit :=
  cache_addAll cache manifest ;;
  try_catch
    (let offlineRequest := new_Request (resolve OFFLINE_URL) in
     offlineResponse <- fetch offlineRequest ;;
     cache_put cache offlineRequest offlineResponse)
    (fun error => console_error "Failed to cache offline page:").

(** The listener.  The async function runs as far as its first [await],
    so [caches.open] has been called when the listener goes on to call
    [skipWaiting] (line 521) and returns; the rest of the function runs
    after that.  The completion is that of the promise given to
    [waitUntil]. *)
Definition on_install_with (manifest : list URL)
  : World -> Completion unit * World :=
  fun w =>
    match caches_open CACHE_NAME w with
    | (Normal cache, w1) => install_body manifest cache (log EvSkipWaiting w1)
    | (Thrown e, w1) => (Thrown e, log EvSkipWaiting w1)
    end.

Definition on_install : World -> Completion unit * World :=
  on_install_with STATIC_CACHE_URLS.

(** *** activate (lines 525-540) *)

(** The filter of line 532, for a given prefix and pair of current
    names. *)
Definition stale (prefix static image : string) (name : string) : bool :=
  startsWith name prefix
  && negb (String.eqb name static) && negb (String.eqb name image).

Definition activate_with (prefix static image : string) : Async unit :=
  cacheNames <- caches_keys ;;
  all_map caches_delete (List.filter (stale prefix static image) cacheNames) ;;
  clients_claim.

Definition on_activate : Async unit :=
  activate_with "cafe-serenity-" CACHE_NAME IMAGE_CACHE_NAME.

(** *** fetch (lines 543-661) *)

(** Network first (lines 555-584). *)
Definition respond_navigate (request : Request) : Async Response :=
  try_catch
    (networkResponse <- fetch request ;;
     (if ok networkResponse then
        cache <- caches_open CACHE_NAME ;;
        cache_put_detached cache request networkResponse
      else ret tt) ;;
     ret networkResponse)
    (fun error =>
       cachedResponse <- caches_match (ByRequest request) ;;
       match cachedResponse with
       | Some r => ret r
       | None =>
           offlineResponse <- caches_match (ByUrl OFFLINE_URL) ;;
           match offlineResponse with
           | Some r => ret r
           | None => ret offline_text_response
           end
       end).

(** Cache first, in the image namespace (lines 592-624). *)
Definition respond_image (request : Request) : Async Response :=
  cache <- caches_open IMAGE_CACHE_NAME ;;
  cachedResponse <- cache_match cache request ;;
  match cachedResponse with
  | Some r => ret r
  | None =>
      try_catch
        (networkResponse <- fetch request ;;
         (if ok networkResponse then
            cache_put_detached cache request networkResponse
          else ret tt) ;;
         ret networkResponse)
        (fun error => ret placeholder_response)
  end.

(** Cache first, over every namespace (lines 631-659). *)
Definition respond_other (request : Request) : Async Response :=
  cachedResponse <- caches_match (ByRequest request) ;;
  match cachedResponse with
  | Some r => ret r
  | None =>
      try_catch
        (networkResponse <- fetch request ;;
         (if ok networkResponse then
            cache <- caches_open CACHE_NAME ;;
            cache_put_detached cache request networkResponse
          else ret tt) ;;
         ret networkResponse)
        (fun error =>
           console_error "Fetch failed:" ;;
           ret unavailable_response)
  end.

(** [event.respondWith(promise)]. *)
Definition respondWith (m : Async Response) : World -> FetchOutcome * World :=
  fun w => let (c, w') := m w in (RespondWith c, w').

Definition on_fetch (request : Request) : World -> FetchOutcome * World :=
  fun w =>
    if negb (String.eqb (origin (url request)) location_origin) then
      (PassThrough, w)
    else if String.eqb (mode request) "navigate" then
      respondWith (respond_navigate request) w
    else if String.eqb (destination request) "image" then
      respondWith (respond_image request) w
    else
      respondWith (respond_other request) w.

End Worker.

(** ** Running the handlers on concrete inputs *)

Definition site : string := "https://cafe.example".

Definition page_request : Request :=
  {| url := mkURL site "/menu.html"; method := "GET";
     mode := "navigate"; destination := "document" |}.

Definition image_request : Request :=
  {| url := mkURL site "/images/menu/latte.png"; method := "GET";
     mode := "no-cors"; destination := "image" |}.


Definition foreign_request : Request :=
  {| url := mkURL "https://fonts.gstatic.com" "/s/noto.woff2"; method := "GET";
     mode := "cors"; destination := "font" |}.

Definition page_200 : Response := new_Response "<html>menu</html>" 200 "OK" [].
Definition page_404 : Response := new_Response "not found" 404 "Not Found" [].
Definition old_page : Response := new_Response "<html>old</html>" 200 "OK" [].
Definition offline_page : Response := new_Response "<html>offline</html>" 200 "OK" [].
Definition latte_png : Response :=
  new_Response "PNG" 200 "OK" [("Content-Type", "image/png")].

(** Answers and a request whose put the host does not accept: a partial
    content, a response that varies on everything, a form submission. *)
Definition page_206 : Response :=
  new_Response "<html>me" 206 "Partial Content" [("Content-Range", "bytes 0-7/17")].
Definition page_vary_star : Response :=
  new_Response "<html>menu</html>" 200 "OK" [("vary", "Accept-Encoding, *")].
Definition form_post : Request :=
  {| url := mkURL site "/contact.html"; method := "POST";
     mode := "navigate"; destination := "document" |}.

Definition always (r : Response) : nat -> Request -> option Response :=
  fun _ _ => Some r.
Definition offline : nat -> Request -> option Response :=
  fun _ _ => None.

Definition empty_world : World :=
  {| caches := []; pending := []; fetches := 0; trace := [] |}.

Definition world_of (cs : CacheStorage) : World :=
  {| caches := cs; pending := []; fetches := 0; trace := [] |}.


Definition latte_fresh : Response :=
  new_Response "PNG2" 200 "OK" [("Content-Type", "image/png")].

(** A store where the page has been visited before. *)
Definition visited_world : World :=
  world_of [(CACHE_NAME, {[ descriptor page_request := old_page ]})].

(** A store that has the offline page, as install leaves it. *)
Definition offline_key : Descriptor :=
  descriptor (new_Request (resolve site OFFLINE_URL)).

Definition offline_ready_world : World :=
  world_of [(CACHE_NAME, {[ offline_key := offline_page ]})].

(** A store where the image is in the image namespace only. *)
Definition image_cached_world : World :=
  world_of [(CACHE_NAME, ∅);
            (IMAGE_CACHE_NAME, {[ descriptor image_request := latte_png ]})].

(** A network on which the sixth fetch, and only it, fails: for a
    manifest of five URLs, the separate fetch of the offline page. *)
Definition sixth_fails : nat → Request → option Response :=
  fun n _ => if Nat.eqb n 5 then None else Some page_200.

(** A network on which the sixth fetch, and only it, is answered with a
    404. *)
Definition sixth_404 : nat → Request → option Response :=
  fun n _ => if Nat.eqb n 5 then Some page_404 else Some page_200.

(** A network on which the third fetch, and only it, fails. *)
Definition third_fails : nat → Request → option Response :=
  fun n _ => if Nat.eqb n 2 then None else Some page_200.

Definition five_urls : list URL :=
  [ mkURL site "/"; mkURL site "/index.html"; mkURL site "/css/main.css";
    mkURL site "/js/main.js"; mkURL site "/offline.html" ].

(** The namespaces of the activation scenario. *)
Definition scenario_world : World :=
  world_of [("site-v1", ∅); ("site-v2", ∅); ("images-v1", ∅)].

(** ** The page script (src/js/main.js)

    The part of the page script whose state can be written down: the
    debounce closure, and the classes, attributes and inline styles that
    the menu and layout controllers set on their elements. *)

(** *** Elements *)

Module Dom.

(** What the script reads and writes of an element: its class list (a
    [DOMTokenList], in order, without repetition), its attributes and
    the properties of its inline style. *)
Record Element := mkElement {
  classList : list string;
  attributes : gmap string string;
  style : gmap string string
}.

Definition add_token (t : string) (l : list string) : list string :=
  if bool_decide (t ∈ l) then l else l ++ [t].

(** [element.classList.add(...tokens)]. *)
Definition classList_add (tokens : list string) (e : Element) : Element :=
  {| classList := fold_left (fun l t => add_token t l) tokens (classList e);
     attributes := attributes e; style := style e |}.

(** [element.classList.remove(...tokens)]. *)
Definition classList_remove (tokens : list string) (e : Element) : Element :=
  {| classList :=
       List.filter (fun c => negb (bool_decide (c ∈ tokens))) (classList e);
     attributes := attributes e; style := style e |}.

(** [element.classList.contains(token)]. *)
Definition classList_contains (t : string) (e : Element) : bool :=
  bool_decide (t ∈ classList e).

(** [element.setAttribute(name, value)]. *)
Definition setAttribute (name value : string) (e : Element) : Element :=
  {| classList := classList e;
     attributes := <[name := value]> (attributes e); style := style e |}.

(** [element.style.prop = value]. *)
Definition style_set (prop value : string) (e : Element) : Element :=
  {| classList := classList e; attributes := attributes e;
     style := <[prop := value]> (style e) |}.

End Dom.

(** *** [Utils] (lines 85-137) *)

Module Utils.

(** [toggleVisibility(element, show)] (lines 126-136); [None] is a null
    element. *)
Definition toggleVisibility (element : option Dom.Element) (show : bool)
  : option Dom.Element :=
  match element with
  | None => None
  | Some e =>
      if show then
        Some (Dom.classList_add ["opacity-100"; "visible"]
                (Dom.classList_remove ["opacity-0"; "invisible"] e))
      else
        Some (Dom.classList_remove ["opacity-100"; "visible"]
                (Dom.classList_add ["opacity-0"; "invisible"] e))
  end.

(** [debounce(func, wait)] (lines 92-103): the closure it returns, with
    the host's timers it uses.  [setTimeout] hands out increasing ids, and
    a timer that runs is removed from the host's table before its
    callback is called.  The calls of [func] are kept in [calls];
    [invocations] keeps those of the returned function; both with the
    time they happened at. *)

Section Debounce.
Variable A : Type.
Variable wait : nat.

Record Debounced := mkDebounced {
  timeout : option nat;
  timers : gmap nat (nat * A);
  next_id : nat;
  now : nat;
  invocations : list (nat * A);
  calls : list (nat * A)
}.

(** [let timeout;] and no timer set. *)
Definition debounce : Debounced :=
  {| timeout := None; timers := ∅; next_id := 1; now := 0;
     invocations := []; calls := [] |}.

(** [clearTimeout(id)]; an undefined or unknown id is ignored. *)
Definition clearTimeout (id : option nat) (ts : gmap nat (nat * A))
  : gmap nat (nat * A) :=
  match id with
  | Some i => delete i ts
  | None => ts
  end.

(** [executedFunction(...args)] (lines 94-102). *)
Definition executedFunction (args : A) (d : Debounced) : Debounced :=
  let ts := clearTimeout (timeout d) (timers d) in
  {| timeout := Some (next_id d);
     timers := <[next_id d := (now d + wait, args)]> ts;
     next_id := S (next_id d);
     now := now d;
     invocations := invocations d ++ [(now d, args)];
     calls := calls d |}.

(** [later()], for the [args] of the invocation that set the timer. *)
Definition later (args : A) (d : Debounced) : Debounced :=
  {| timeout := timeout d;
     timers := clearTimeout (timeout d) (timers d);
     next_id := next_id d;
     now := now d;
     invocations := invocations d;
     calls := calls d ++ [(now d, args)] |}.

(** The host runs the timer [id]: only a timer that is set and due. *)
Definition fire (id : nat) (d : Debounced) : option Debounced :=
  match timers d !! id with
  | Some (due, args) =>
      if (due <=? now d)%nat then
        Some (later args
                {| timeout := timeout d; timers := delete id (timers d);
                   next_id := next_id d; now := now d;
                   invocations := invocations d; calls := calls d |})
      else None
  | None => None
  end.

Definition elapse (dt : nat) (d : Debounced) : Debounced :=
  {| timeout := timeout d; timers := timers d; next_id := next_id d;
     now := now d + dt; invocations := invocations d; calls := calls d |}.

(** What happens to the closure: it is invoked, time passes, a timer
    runs. *)
Inductive Action :=
| Invoke (args : A)
| Elapse (dt : nat)
| Fire (id : nat).

Fixpoint run (acts : list Action) (d : Debounced) : option Debounced :=
  match acts with
  | [] => Some d
  | Invoke args :: acts' => run acts' (executedFunction args d)
  | Elapse dt :: acts' => run acts' (elapse dt d)
  | Fire id :: acts' =>
      match fire id d with
      | Some d' => run acts' d'
      | None => None
      end
  end.

End Debounce.

Arguments timeout {A} _.
Arguments timers {A} _.
Arguments next_id {A} _.
Arguments now {A} _.
Arguments invocations {A} _.
Arguments calls {A} _.
Arguments debounce {A}.
Arguments clearTimeout {A} _ _.
Arguments executedFunction {A} _ _ _.
Arguments later {A} _ _.
Arguments fire {A} _ _.
Arguments elapse {A} _ _.
Arguments Invoke {A} _.
Arguments Elapse {A} _.
Arguments Fire {A} _.
Arguments run {A} _ _ _.

(** What holds of the closure between two actions: no timer is set, or
    one is, which [timeout] refers to and which carries the arguments of
    the latest invocation, due [wait] after it. *)
Definition debounce_inv {A} (wait : nat) (d : Debounced A) : Prop :=
  (timers d = ∅ ∧ (List.length (calls d) ≤ List.length (invocations d))%nat)
  ∨ (∃ id t0 args,
       timers d = {[ id := ((t0 + wait)%nat, args) ]}
       ∧ timeout d = Some id
       ∧ last (invocations d) = Some (t0, args)
       ∧ (List.length (calls d) < List.length (invocations d))%nat).

End Utils.

(** *** The page the controllers share *)

Module Page.

(** The elements the controllers look up by id
    ([document.getElementById]), the icon inside the menu button
    ([menuBtn.querySelector('i')]), the fields of the two controller
    objects, and the width of the window. *)
Record Page := mkPage {
  elements : gmap string Dom.Element;
  icon : option Dom.Element;
  isOpen : bool;
  currentBreakpoint : string;
  innerWidth : Z
}.

(** A change of the element with the given id.  An id that the document
    does not have is a null reference: the controllers guard their
    accesses ([if (this.desktopMenu)], or the guard of [MobileMenu.init]
    before any handler is registered), so nothing happens. *)
Definition on (id : string) (f : Dom.Element → Dom.Element) (p : Page) : Page :=
  {| elements := alter f id (elements p); icon := icon p; isOpen := isOpen p;
     currentBreakpoint := currentBreakpoint p; innerWidth := innerWidth p |}.

Definition set_isOpen (b : bool) (p : Page) : Page :=
  {| elements := elements p; icon := icon p; isOpen := b;
     currentBreakpoint := currentBreakpoint p; innerWidth := innerWidth p |}.

Definition set_icon (i : option Dom.Element) (p : Page) : Page :=
  {| elements := elements p; icon := i; isOpen := isOpen p;
     currentBreakpoint := currentBreakpoint p; innerWidth := innerWidth p |}.

Definition set_currentBreakpoint (b : string) (p : Page) : Page :=
  {| elements := elements p; icon := icon p; isOpen := isOpen p;
     currentBreakpoint := b; innerWidth := innerWidth p |}.

(** The user resizes the window. *)
Definition set_innerWidth (width : Z) (p : Page) : Page :=
  {| elements := elements p; icon := icon p; isOpen := isOpen p;
     currentBreakpoint := currentBreakpoint p; innerWidth := width |}.

(** What a test of the page would look at. *)
Definition has_class (id c : string) (p : Page) : bool :=
  match elements p !! id with
  | Some e => Dom.classList_contains c e
  | None => false
  end.

Definition style_of (id prop : string) (p : Page) : option string :=
  match elements p !! id with
  | Some e => Dom.style e !! prop
  | None => None
  end.

Definition attribute_of (id name : string) (p : Page) : option string :=
  match elements p !! id with
  | Some e => Dom.attributes e !! name
  | None => None
  end.

End Page.

(** *** [MobileMenu] (lines 140-206) *)

Module MobileMenu.
Import Page.

Definition menuBtn : string := "mobile-menu-btn".
Definition menu : string := "mobile-menu".

(** [open()] (lines 179-191). *)
Definition open (p : Page) : Page :=
  let p := on menu (Dom.classList_remove ["hidden"]) p in
  let p := on menuBtn (Dom.setAttribute "aria-expanded" "true") p in
  let p := on menu (Dom.setAttribute "aria-hidden" "false") p in
  let p := set_isOpen true p in
  match icon p with
  | Some i =>
      set_icon (Some (Dom.classList_add ["fa-times"]
                        (Dom.classList_remove ["fa-bars"] i))) p
  | None => p
  end.

(** [close()] (lines 193-205). *)
Definition close (p : Page) : Page :=
  let p := on menu (Dom.classList_add ["hidden"]) p in
  let p := on menuBtn (Dom.setAttribute "aria-expanded" "false") p in
  let p := on menu (Dom.setAttribute "aria-hidden" "true") p in
  let p := set_isOpen false p in
  match icon p with
  | Some i =>
      set_icon (Some (Dom.classList_add ["fa-bars"]
                        (Dom.classList_remove ["fa-times"] i))) p
  | None => p
  end.

(** [toggle()] (lines 175-177). *)
Definition toggle (p : Page) : Page :=
  if isOpen p then close p else open p.

(** The [keydown] listener of the document (lines 161-165). *)
Definition on_keydown (key : string) (p : Page) : Page :=
  if String.eqb key "Escape" && isOpen p then close p else p.

(** The [click] listener of the document (lines 168-172); the two flags
    are [menu.contains(e.target)] and [menuBtn.contains(e.target)]. *)
Definition on_document_click (in_menu in_menuBtn : bool) (p : Page) : Page :=
  if isOpen p && negb in_menu && negb in_menuBtn then close p else p.

(** The menu is shown as open ([b] true) or as closed: the class hidden of
    the menu, the two ARIA attributes and the classes of the icon. *)
Definition displays (b : bool) (p : Page) : Prop :=
  has_class menu "hidden" p = negb b
  ∧ attribute_of menuBtn "aria-expanded" p = Some (if b then "true" else "false")
  ∧ attribute_of menu "aria-hidden" p = Some (if b then "false" else "true")
  ∧ ∀ i, icon p = Some i →
         Dom.classList_contains "fa-times" i = b
         ∧ Dom.classList_contains "fa-bars" i = negb b.

End MobileMenu.

(** *** [ResponsiveController] (lines 517-689) *)

Module ResponsiveController.
Import Page.

Definition mobileMenuBtn : string := "mobile-menu-btn".
Definition mobileMenu : string := "mobile-menu".
Definition desktopMenu : string := "desktop-menu".

(** [CONFIG.MOBILE_BREAKPOINT] (line 81). *)
Definition MOBILE_BREAKPOINT : Z := 768.

(** [getCurrentBreakpoint()] (lines 546-548). *)
Definition getCurrentBreakpoint (p : Page) : string :=
  if (innerWidth p <? MOBILE_BREAKPOINT)%Z then "mobile" else "desktop".

(** Lines 584-617. *)
Definition showMobileMenu (p : Page) : Page :=
  on mobileMenuBtn
    (fun e => Dom.style_set "display" "block" (Dom.classList_remove ["hidden"] e)) p.

Definition hideMobileMenu (p : Page) : Page :=
  on mobileMenuBtn
    (fun e => Dom.style_set "display" "none" (Dom.classList_add ["hidden"] e)) p.

Definition showDesktopMenu (p : Page) : Page :=
  on desktopMenu
    (fun e => Dom.style_set "display" "flex" (Dom.classList_remove ["hidden"] e)) p.

Definition hideDesktopMenu (p : Page) : Page :=
  on desktopMenu
    (fun e => Dom.style_set "display" "none" (Dom.classList_add ["hidden"] e)) p.

Definition closeMobileMenu (p : Page) : Page :=
  on mobileMenu
    (fun e => Dom.setAttribute "aria-hidden" "true" (Dom.classList_add ["hidden"] e)) p.

(** [updateNavigation()] (lines 550-582). *)
Definition updateNavigation (p : Page) : Page :=
  let isMobile := String.eqb (currentBreakpoint p) "mobile" in
  let p :=
    if isMobile then hideDesktopMenu (showMobileMenu p)
    else closeMobileMenu (showDesktopMenu (hideMobileMenu p)) in
  if negb isMobile then
    let p :=
      on desktopMenu
        (fun e =>
           Dom.classList_remove ["hidden"]
             (Dom.style_set "opacity" "1"
                (Dom.style_set "visibility" "visible"
                   (Dom.style_set "display" "flex" e)))) p in
    on mobileMenuBtn
      (fun e =>
         Dom.classList_add ["md:hidden"]
           (Dom.style_set "opacity" "0"
              (Dom.style_set "visibility" "hidden"
                 (Dom.style_set "display" "none" e)))) p
  else p.

(** The [resize] listener, once the debounce lets it run (lines
    532-538). *)
Definition on_resize (p : Page) : Page :=
  let newBreakpoint := getCurrentBreakpoint p in
  if negb (String.eqb newBreakpoint (currentBreakpoint p)) then
    updateNavigation (set_currentBreakpoint newBreakpoint p)
  else p.

(** The desktop menu and the mobile menu button are laid out for the
    recorded breakpoint: one has the class hidden and [display: none],
    the other has not. *)
Definition layout_follows (p : Page) : Prop :=
  if String.eqb (currentBreakpoint p) "mobile" then
    has_class mobileMenuBtn "hidden" p = false
    ∧ style_of mobileMenuBtn "display" p = Some "block"
    ∧ has_class desktopMenu "hidden" p = true
    ∧ style_of desktopMenu "display" p = Some "none"
  else
    has_class mobileMenuBtn "hidden" p = true
    ∧ style_of mobileMenuBtn "display" p = Some "none"
    ∧ has_class desktopMenu "hidden" p = false
    ∧ style_of desktopMenu "display" p = Some "flex".

End ResponsiveController.

(** *** Regular expressions

    A JavaScript string is a sequence of UTF-16 code units, here [list N].
    The host's [RegExp.test], for an expression anchored at both ends
    and without flags, says whether the whole string is in the language of
    the expression; it is computed with derivatives. *)

Module RegExp.

Inductive regex :=
| Empty
| Eps
| Class (p : N → bool)
| Seq (r1 r2 : regex)
| Alt (r1 r2 : regex)
| Star (r : regex).

(** One given code unit, and [r+]. *)
Definition Char (c : N) : regex := Class (N.eqb c).
Definition Plus (r : regex) : regex := Seq r (Star r).

Fixpoint nullable (r : regex) : bool :=
  match r with
  | Empty => false
  | Eps => true
  | Class _ => false
  | Seq r1 r2 => nullable r1 && nullable r2
  | Alt r1 r2 => nullable r1 || nullable r2
  | Star _ => true
  end.

Fixpoint deriv (c : N) (r : regex) : regex :=
  match r with
  | Empty => Empty
  | Eps => Empty
  | Class p => if p c then Eps else Empty
  | Seq r1 r2 =>
      if nullable r1 then Alt (Seq (deriv c r1) r2) (deriv c r2)
      else Seq (deriv c r1) r2
  | Alt r1 r2 => Alt (deriv c r1) (deriv c r2)
  | Star r1 => Seq (deriv c r1) (Star r1)
  end.

(** [/^r$/.test(s)]. *)
Fixpoint test (r : regex) (s : list N) : bool :=
  match s with
  | [] => nullable r
  | c :: s' => test (deriv c r) s'
  end.

(** The language of an expression. *)
Inductive Matches : regex → list N → Prop :=
| MEps : Matches Eps []
| MClass p c : p c = true → Matches (Class p) [c]
| MSeq r1 r2 s1 s2 : Matches r1 s1 → Matches r2 s2 → Matches (Seq r1 r2) (s1 ++ s2)
| MAltL r1 r2 s : Matches r1 s → Matches (Alt r1 r2) s
| MAltR r1 r2 s : Matches r2 s → Matches (Alt r1 r2) s
| MStarNil r : Matches (Star r) []
| MStarCons r s1 s2 :
    Matches r s1 → Matches (Star r) s2 → Matches (Star r) (s1 ++ s2).

End RegExp.

(** *** [ContactForm] (lines 316-437) *)

Module ContactForm.

(** The code units that [String.prototype.trim] strips and that [\s]
    matches: WhiteSpace and LineTerminator of ECMAScript. *)
Definition isWhiteSpace (c : N) : bool :=
  (N.leb 9 c && N.leb c 13)
  || N.eqb c 32 || N.eqb c 160 || N.eqb c 5760
  || (N.leb 8192 c && N.leb c 8202)
  || N.eqb c 8232 || N.eqb c 8233 || N.eqb c 8239 || N.eqb c 8287
  || N.eqb c 12288 || N.eqb c 65279.

Fixpoint trimStart (s : list N) : list N :=
  match s with
  | [] => []
  | c :: s' => if isWhiteSpace c then trimStart s' else s
  end.

Definition trimEnd (s : list N) : list N := rev (trimStart (rev s)).

(** [s.trim()]. *)
Definition trim (s : list N) : list N := trimEnd (trimStart s).

(** [[^\s@]]; 64 is the code unit of the at sign, 46 that of the dot. *)
Definition notSpaceOrAt (c : N) : bool := negb (isWhiteSpace c || N.eqb c 64).

(** [/^[^\s@]+@[^\s@]+\.[^\s@]+$/] (line 343). *)
Definition emailRegex : RegExp.regex :=
  RegExp.Seq (RegExp.Plus (RegExp.Class notSpaceOrAt))
    (RegExp.Seq (RegExp.Char 64)
       (RegExp.Seq (RegExp.Plus (RegExp.Class notSpaceOrAt))
          (RegExp.Seq (RegExp.Char 46)
             (RegExp.Plus (RegExp.Class notSpaceOrAt))))).

(** An element of class error-message: its classes as written and its
    text. *)
Record ErrorElement := mkError {
  className : string;
  textContent : string
}.

(** An input or textarea of the form: the element, its current value,
    its [type] property, and which element is its parent. *)
Record Field := mkField {
  element : Dom.Element;
  value : list N;
  type : string;
  parent : nat
}.

(** [field.hasAttribute(name)]. *)
Definition hasAttribute (name : string) (f : Field) : bool :=
  bool_decide (is_Some (Dom.attributes (element f) !! name)).

Definition with_element (e : Dom.Element) (f : Field) : Field :=
  {| element := e; value := value f; type := type f; parent := parent f |}.

Definition REQUIRED_MESSAGE : string := "このフィールドは必須です".
Definition EMAIL_MESSAGE : string := "有効なメールアドレスを入力してください".

(** [showError(field, message)] (lines 354-365).  [errs] are the
    descendants of the field's parent that match [.error-message], in
    document order: [querySelector] gives the first. *)
Definition showError (field : Field) (message : string) (errs : list ErrorElement)
  : Field * list ErrorElement :=
  let errs' :=
    match errs with
    | errorElement :: rest =>
        {| className := className errorElement; textContent := message |} :: rest
    | [] =>
        [ {| className := "error-message text-red-600 text-sm mt-1";
             textContent := message |} ]
    end in
  (with_element (Dom.classList_add ["border-red-500"] (element field)) field, errs').

(** [clearError(field)] (lines 367-373). *)
Definition clearError (field : Field) (errs : list ErrorElement)
  : Field * list ErrorElement :=
  let errs' :=
    match errs with
    | errorElement :: rest => rest
    | [] => []
    end in
  (with_element (Dom.classList_remove ["border-red-500"] (element field)) field,
   errs').

(** [validateField(field)] (lines 333-352); an empty string is falsy. *)
Definition validateField (field : Field) (errs : list ErrorElement)
  : bool * (Field * list ErrorElement) :=
  let value := trim (value field) in
  let isRequired := hasAttribute "required" field in
  if isRequired && bool_decide (value = []) then
    (false, showError field REQUIRED_MESSAGE errs)
  else if String.eqb (type field) "email" && negb (bool_decide (value = []))
          && negb (RegExp.test emailRegex value) then
    (false, showError field EMAIL_MESSAGE errs)
  else
    (true, clearError field errs).

(** *** The validation loop of [handleSubmit] (lines 379-389)

    [validateField] takes the error elements that the search under the
    parent of its field finds.  Which elements these are for each field
    of a form depends on how the fields are nested in the document: a
    parent is searched with all its descendants, so that the searches
    for two fields can meet the same element.  The loop is therefore
    written over a document of any shape, given by what the search for a
    field finds in it and by the document in which these elements have
    been changed. *)

Section Document.

Variable Doc : Type.

(** [field.parentElement.querySelectorAll('.error-message')] in document
    order; nothing when the field has no parent element, where
    [showError] and [clearError] throw a TypeError. *)
Variable error_elements : Field → Doc → option (list ErrorElement).

(** The document once the elements found for the field are the given
    ones. *)
Variable set_error_elements : Field → list ErrorElement → Doc → Doc.

(** [this.validateField(field)] in the document. *)
Definition validateField_in (field : Field) (doc : Doc)
  : option (bool * (Field * Doc)) :=
  match error_elements field doc with
  | Some errs =>
      let '(valid, (field', errs')) := validateField field errs in
      Some (valid, (field', set_error_elements field errs' doc))
  | None => None
  end.

(** [fields.forEach(field => { if (!this.validateField(field)) isValid =
    false; })], from the current [isValid]: the fields are those of the
    static list that [querySelectorAll] gave, in document order.  An
    exception ends the loop and the handler. *)
Fixpoint forEach_validate (fields : list Field) (isValid : bool) (doc : Doc)
  : option (bool * (list Field * Doc)) :=
  match fields with
  | [] => Some (isValid, ([], doc))
  | field :: rest =>
      match validateField_in field doc with
      | Some (valid, (field', doc')) =>
          let isValid := if negb valid then false else isValid in
          match forEach_validate rest isValid doc' with
          | Some (isValid', (rest', doc'')) =>
              Some (isValid', (field' :: rest', doc''))
          | None => None
          end
      | None => None
      end
  end.

(** The loop with [let isValid = true]: the result is [isValid], the
    fields and the document as the loop leaves them.  When [isValid] is
    false the handler returns there. *)
Definition validateAll (fields : list Field) (doc : Doc)
  : option (bool * (list Field * Doc)) :=
  forEach_validate fields true doc.

End Document.

Arguments validateField_in {Doc}.
Arguments forEach_validate {Doc}.
Arguments validateAll {Doc}.

(** One shape of document: every field's parent holds its own error
    elements, apart from those of the other parents.  The error
    elements are kept by parent; a parent without an entry has none. *)
Definition errors_of (p : nat) (errors : gmap nat (list ErrorElement))
  : list ErrorElement :=
  default [] (errors !! p).

Definition flat_error_elements (field : Field)
    (errors : gmap nat (list ErrorElement)) : option (list ErrorElement) :=
  Some (errors_of (parent field) errors).

Definition flat_set_error_elements (field : Field) (errs : list ErrorElement)
    (errors : gmap nat (list ErrorElement)) : gmap nat (list ErrorElement) :=
  <[parent field := errs]> errors.

End ContactForm.

(** *** [ScrollEffects] (lines 209-313): the highlighted navigation link *)

From Stdlib Require QArith.

Module ScrollEffects.

(** A [section[id]] of the page: its [offsetTop], an integer number of
    pixels, and its id. *)
Record PageSection := mkSection {
  offsetTop : Z;
  id : string
}.

(** A [nav a[href^="#"]]: its [href] attribute and the element. *)
Record NavLink := mkLink {
  href : string;
  link : Dom.Element
}.

Record State := mkState {
  sections : list PageSection;
  navLinks : list NavLink;
  currentActiveSection : string
}.

(** [scrollY >= sectionTop] for [sectionTop = section.offsetTop - 100];
    [scrollY] is a number, here a rational. *)
Definition reached (scrollY : QArith_base.Q) (section : PageSection) : bool :=
  QArith_base.Qle_bool (QArith_base.inject_Z (offsetTop section - 100)) scrollY.

(** The loop of lines 288-293. *)
Definition current_section (scrollY : QArith_base.Q) (sections : list PageSection) : string :=
  fold_left
    (fun current section =>
       if reached scrollY section then id section else current)
    sections "".

(** The body of the loop of lines 297-308. *)
Definition restyle (current : string) (l : NavLink) : NavLink :=
  let isActive := String.eqb (href l) ("#" +:+ current) in
  {| href := href l;
     link :=
       if isActive then
         Dom.classList_add ["text-amber-600"; "font-semibold"]
           (Dom.classList_remove ["text-stone-800"] (link l))
       else
         Dom.classList_add ["text-stone-800"]
           (Dom.classList_remove ["text-amber-600"; "font-semibold"] (link l)) |}.

(** [updateActiveNavigation(scrollY)] (lines 285-312). *)
Definition updateActiveNavigation (scrollY : QArith_base.Q) (st : State) : State :=
  let current := current_section scrollY (sections st) in
  if negb (String.eqb current (currentActiveSection st)) then
    {| sections := sections st;
       navLinks := map (restyle current) (navLinks st);
       currentActiveSection := current |}
  else st.

(** The links are styled for the section [current]: the link to it, and
    no other, has the two classes of an active link, and every other has
    the class of an inactive one. *)
Definition highlights (current : string) (links : list NavLink) : Prop :=
  ∀ l, l ∈ links →
       let isActive := String.eqb (href l) ("#" +:+ current) in
       Dom.classList_contains "text-amber-600" (link l) = isActive
       ∧ Dom.classList_contains "font-semibold" (link l) = isActive
       ∧ Dom.classList_contains "text-stone-800" (link l) = negb isActive.

End ScrollEffects.

(** *** Sample pages, forms and runs of the page script *)

Definition bare : Dom.Element :=
  {| Dom.classList := []; Dom.attributes := ∅; Dom.style := ∅ |}.

Definition with_classes (cs : list string) : Dom.Element :=
  {| Dom.classList := cs; Dom.attributes := ∅; Dom.style := ∅ |}.

(** A page on a phone, with the menu open. *)
Definition phone_page : Page.Page :=
  {| Page.elements :=
       {[ "mobile-menu-btn" := bare;
          "mobile-menu" := bare;
          "desktop-menu" := with_classes ["hidden"] ]};
     Page.icon := Some (with_classes ["fas"; "fa-times"]);
     Page.isOpen := true;
     Page.currentBreakpoint := "mobile";
     Page.innerWidth := 390 |}.

(** The code units of [a@b.c] and of [  a@b  ]. *)
Definition short_address : list N := [97; 64; 98; 46; 99]%N.
Definition no_dot_address : list N := [32; 32; 97; 64; 98; 32; 32]%N.

Definition email_field (v : list N) (p : nat) : ContactForm.Field :=
  {| ContactForm.element :=
       {| Dom.classList := []; Dom.attributes := {[ "required" := "" ]};
          Dom.style := ∅ |};
     ContactForm.value := v;
     ContactForm.type := "email";
     ContactForm.parent := p |}.

Definition sample_fields : list ContactForm.Field :=
  [ email_field no_dot_address 0; email_field short_address 1;
    email_field [] 2 ].

Definition sample_sections : list ScrollEffects.PageSection :=
  [ ScrollEffects.mkSection 0 "home"; ScrollEffects.mkSection 800 "menu";
    ScrollEffects.mkSection 1600 "access" ].

Definition sample_links : list ScrollEffects.NavLink :=
  [ ScrollEffects.mkLink "#home" (with_classes ["text-stone-800"]);
    ScrollEffects.mkLink "#menu" (with_classes ["text-stone-800"]);
    ScrollEffects.mkLink "#access" (with_classes ["text-stone-800"]) ].

Definition sample_scroll : ScrollEffects.State :=
  {| ScrollEffects.sections := sample_sections;
     ScrollEffects.navLinks := sample_links;
     ScrollEffects.currentActiveSection := "" |}.

(** Two invocations within the wait, then the wait; and the same cut
    short. *)
Definition burst : list (Utils.Action string) :=
  [ Utils.Invoke "first"; Utils.Elapse 100; Utils.Invoke "second";
    Utils.Elapse 150 ].

Definition short_burst : list (Utils.Action string) :=
  [ Utils.Invoke "first"; Utils.Elapse 100; Utils.Invoke "second";
    Utils.Elapse 100 ].

(** ** Facts about the storage *)

Section Storage.
Implicit Types (cs : CacheStorage) (k : Descriptor) (r : Response).

Lemma ns_find_app name cs cs' :
  ns_find name (cs ++ cs') =
    match ns_find name cs with
    | Some c => Some c
    | None => ns_find name cs'
    end.
Proof.
  induction cs as [|[n c] cs IH]; simpl; [done|].
  by destruct (String.eqb n name).
Qed.

Lemma ns_find_open_same name cs : is_Some (ns_find name (store_open name cs)).
Proof.
  unfold store_open. destruct (ns_find name cs) as [c|] eqn:E.
  - rewrite E. eauto.
  - rewrite ns_find_app, E. simpl. rewrite String.eqb_refl. eauto.
Qed.

(** Opening a namespace changes no entry of any namespace. *)
Lemma ns_lookup_open name cs name' k :
  ns_lookup (store_open name cs) name' k = ns_lookup cs name' k.
Proof.
  unfold ns_lookup, store_open.
  destruct (ns_find name cs) as [c|] eqn:E; [done|].
  rewrite ns_find_app. destruct (ns_find name' cs) as [c'|] eqn:E'; [done|].
  simpl. destruct (String.eqb_spec name name') as [->|_]; [|done].
  apply lookup_empty.
Qed.

Lemma ns_find_put name k r cs name' :
  ns_find name' (store_put name k r cs) =
    if String.eqb name' name then <[k := r]> <$> ns_find name cs
    else ns_find name' cs.
Proof.
  induction cs as [|[n c] cs IH]; simpl.
  - by destruct (String.eqb name' name).
  - destruct (String.eqb_spec n name) as [->|Hn]; simpl.
    + destruct (String.eqb_spec name name') as [->|Hn'].
      * by rewrite String.eqb_refl.
      * destruct (String.eqb_spec name' name); congruence.
    + destruct (String.eqb_spec n name') as [->|Hn'].
      * destruct (String.eqb_spec name' name); congruence.
      * apply IH.
Qed.

Lemma ns_find_put_is_Some name k r cs name' :
  is_Some (ns_find name' cs) → is_Some (ns_find name' (store_put name k r cs)).
Proof.
  intros [c Hc]. rewrite ns_find_put.
  destruct (String.eqb_spec name' name) as [->|_]; rewrite Hc; simpl; eauto.
Qed.

(** A put through a handle on an existing namespace is read back. *)
Lemma ns_lookup_put_same name k r cs :
  is_Some (ns_find name cs) →
  ns_lookup (store_put name k r cs) name k = Some r.
Proof.
  intros [c Hc]. unfold ns_lookup.
  rewrite ns_find_put, String.eqb_refl, Hc. simpl. apply lookup_insert_eq.
Qed.

Lemma ns_find_settle_is_Some name (ps : list PendingPut) cs :
  is_Some (ns_find name cs) →
  is_Some (ns_find name (fold_left (fun cs p => land p cs) ps cs)).
Proof.
  revert cs. induction ps as [|p ps IH]; intros cs H; simpl; [done|].
  apply IH. by apply ns_find_put_is_Some.
Qed.

(** What a put leaves in any entry. *)
Lemma ns_lookup_put name k r cs name' k' :
  ns_lookup (store_put name k r cs) name' k' =
    if decide (name' = name ∧ k' = k ∧ is_Some (ns_find name cs))
    then Some r else ns_lookup cs name' k'.
Proof.
  unfold ns_lookup. rewrite ns_find_put.
  destruct (String.eqb_spec name' name) as [->|Hne].
  - destruct (ns_find name cs) as [c|] eqn:Hc; simpl.
    + destruct (decide (k' = k)) as [->|Hk].
      * rewrite lookup_insert_eq. rewrite decide_True; [done|]. eauto.
      * rewrite lookup_insert_ne by done. rewrite decide_False; [done|]. tauto.
    + rewrite decide_False; [done|]. intros (_ & _ & [? ?]). done.
  - rewrite decide_False; [done|]. tauto.
Qed.

(** Puts that are not for an entry leave it as it is. *)
Lemma ns_lookup_settled_in_other order cs name k :
  (∀ q, q ∈ order → ¬ (p_cache q = name ∧ p_key q = k)) →
  ns_lookup (settled_in order cs) name k = ns_lookup cs name k.
Proof.
  revert cs. induction order as [|p order IH]; intros cs H; [done|].
  unfold settled_in in *. simpl. rewrite IH.
  - unfold land. rewrite ns_lookup_put. rewrite decide_False; [done|].
    intros (-> & -> & _). apply (H p); [left|done].
  - intros q Hq. apply H. by right.
Qed.

(** Puts that carry, for an entry, the response it already has leave it
    there. *)
Lemma ns_lookup_settled_in_keep order cs name k r :
  ns_lookup cs name k = Some r →
  (∀ q, q ∈ order → p_cache q = name → p_key q = k → p_response q = r) →
  ns_lookup (settled_in order cs) name k = Some r.
Proof.
  revert cs. induction order as [|p order IH]; intros cs Hr H; [done|].
  unfold settled_in in *. simpl. apply IH.
  - unfold land. rewrite ns_lookup_put. case_decide as Hd; [|done].
    destruct Hd as (Hn & Hk & _). f_equal. apply H; [left|done|done].
  - intros q Hq. apply H. by right.
Qed.

(** A put for an entry, with no rival among the others, decides it: the
    order in which the puts land does not matter. *)
Lemma ns_lookup_settled_in order cs name k r :
  is_Some (ns_find name cs) →
  mkPending name k r ∈ order →
  (∀ q, q ∈ order → p_cache q = name → p_key q = k → p_response q = r) →
  ns_lookup (settled_in order cs) name k = Some r.
Proof.
  revert cs. induction order as [|p order IH]; intros cs Hc Hin H.
  - by apply elem_of_nil in Hin.
  - unfold settled_in. simpl. fold (settled_in order (land p cs)).
    destruct (decide (p_cache p = name ∧ p_key p = k)) as [[Hn Hk]|Hne].
    + apply ns_lookup_settled_in_keep.
      * unfold land. rewrite Hn, Hk, (H p); [|left|done|done].
        by apply ns_lookup_put_same.
      * intros q Hq. apply H. by right.
    + apply IH.
      * by apply ns_find_put_is_Some.
      * apply elem_of_cons in Hin as [Heq|Hin]; [|done].
        subst p. simpl in Hne. tauto.
      * intros q Hq. apply H. by right.
Qed.

(** The put of a run, once it has landed among those that were in
    flight, in any order. *)
Lemma issued_put_settles name k r cs (before order : list PendingPut) :
  is_Some (ns_find name cs) →
  (∀ q, q ∈ before → p_cache q = name → p_key q = k → p_response q = r) →
  order ≡ₚ before ++ [mkPending name k r] →
  ns_lookup (settled_in order cs) name k = Some r.
Proof.
  intros Hc Hun Hord. apply ns_lookup_settled_in; [done| |].
  - rewrite Hord. apply elem_of_app. right. left.
  - intros q Hq. rewrite Hord in Hq.
    apply elem_of_app in Hq as [Hq|Hq]; [by apply Hun|].
    apply list_elem_of_singleton in Hq as ->. done.
Qed.

Lemma storable_true (request : Request) r :
  method request = "GET" → status r ≠ 206 → vary_star r = false →
  storable request r = true.
Proof.
  intros Hget Hst Hv. unfold storable. rewrite Hget, Hv. simpl.
  apply Nat.eqb_neq in Hst. by rewrite Hst.
Qed.

(** [store_match] finds an entry exactly when some namespace has one. *)
Lemma store_match_Some k cs r :
  store_match k cs = Some r → ∃ n c, (n, c) ∈ cs ∧ c !! k = Some r.
Proof.
  induction cs as [|[n c] cs IH]; simpl; [done|].
  destruct (c !! k) as [r'|] eqn:E.
  - intros [= <-]. exists n, c. split; [left|done].
  - intros H. destruct (IH H) as (n' & c' & Hin & Hk).
    exists n', c'. split; [by right|done].
Qed.

Lemma store_match_None k cs :
  store_match k cs = None ↔ ∀ n c, (n, c) ∈ cs → c !! k = None.
Proof.
  induction cs as [|[n c] cs IH]; simpl.
  - split; [|done]. intros _ n c H. by apply elem_of_nil in H.
  - destruct (c !! k) as [r'|] eqn:E.
    + split; [done|]. intros H. specialize (H n c). rewrite E in H.
      apply H. left.
    + rewrite IH. split.
      * intros H n' c' [[= -> ->]|Hin]%elem_of_cons; eauto.
      * intros H n' c' Hin. apply (H n' c'). by right.
Qed.

Lemma store_match_is_Some k cs n c r :
  (n, c) ∈ cs → c !! k = Some r → is_Some (store_match k cs).
Proof.
  intros Hin Hk. destruct (store_match k cs) as [r'|] eqn:E; [eauto|].
  rewrite store_match_None in E. specialize (E n c Hin). congruence.
Qed.

(** Deleting [name] removes it and leaves every other namespace as it
    was. *)
Lemma ns_find_delete name cs name' :
  ns_find name' (store_delete name cs) =
    if String.eqb name' name then None else ns_find name' cs.
Proof.
  induction cs as [|[n c] cs IH]; simpl.
  - by destruct (String.eqb name' name).
  - destruct (String.eqb_spec n name) as [->|Hn]; simpl.
    + rewrite IH. destruct (String.eqb_spec name' name) as [E|Hn']; [done|].
      destruct (String.eqb_spec name name'); congruence.
    + destruct (String.eqb_spec n name') as [E|Hn'].
      * destruct (String.eqb_spec name' name); congruence.
      * apply IH.
Qed.

Lemma store_keys_delete name cs name' :
  name' ∈ store_keys (store_delete name cs) ↔
  name' ∈ store_keys cs ∧ name' ≠ name.
Proof.
  unfold store_keys, store_delete.
  rewrite !list_elem_of_fmap. split.
  - intros ([n c] & -> & Hin). apply list_elem_of_In, filter_In in Hin.
    destruct Hin as [Hin Hb]. simpl in *. split.
    + exists (n, c). split; [done|]. by apply list_elem_of_In.
    + destruct (String.eqb_spec n name); [done|congruence].
  - intros [([n c] & -> & Hin) Hne]. exists (n, c). split; [done|].
    apply list_elem_of_In, filter_In. split; [by apply list_elem_of_In|].
    simpl in *. destruct (String.eqb_spec n name); [congruence|done].
Qed.

End Storage.

(** ** The fetch handler *)

(** Unfolds one run of a handler down to the host calls. *)
Ltac run_handler :=
  unfold on_fetch, respondWith, respond_navigate, respond_image, respond_other,
    try_catch, bind, ret, throw, fetch, caches_open, cache_match, caches_match,
    cache_put_detached, console_error, emit; simpl.

Section FetchHandler.
Variable location_origin : string.
Variable net : nat → Request → option Response.
Implicit Types (request : Request) (w : World) (r : Response).

Lemma same_origin_eqb request :
  origin (url request) = location_origin →
  negb (String.eqb (origin (url request)) location_origin) = false.
Proof. intros ->. by rewrite String.eqb_refl. Qed.

Lemma classify_Navigation request :
  classify request = Navigation → String.eqb (mode request) "navigate" = true.
Proof. unfold classify. by repeat case_match. Qed.

Lemma classify_Image request :
  classify request = Image →
  String.eqb (mode request) "navigate" = false
  ∧ String.eqb (destination request) "image" = true.
Proof. unfold classify. by repeat case_match. Qed.


(** C9: a request to another origin is not intercepted: the listener
    returns without [respondWith], and has made no host call at all (no
    cache read, no cache write, no fetch): the world is as it was. *)
Theorem cross_origin_pass_through request w :
  origin (url request) ≠ location_origin →
  on_fetch location_origin net request w = (PassThrough, w).
Proof.
  intros Hne. unfold on_fetch.
  destruct (String.eqb_spec (origin (url request)) location_origin); [done|].
  reflexivity.
Qed.

(** C4: for every same-origin request the listener hands over a promise
    that settles to a response; whatever the network and the caches
    answer, it never rejects. *)
Theorem same_origin_always_responds request w :
  origin (url request) = location_origin →
  ∃ r w', on_fetch location_origin net request w = (RespondWith (Normal r), w').
Proof.
  intros Ho. unfold on_fetch. rewrite (same_origin_eqb _ Ho).
  destruct (String.eqb (mode request) "navigate");
    [|destruct (String.eqb (destination request) "image")]; run_handler.
  - destruct (net (fetches w) request) as [r|]; simpl.
    + destruct (ok r); simpl; eauto.
    + destruct (store_match (descriptor request) (caches w)); simpl; [eauto|].
      destruct (store_match _ (caches w)); simpl; eauto.
  - destruct (ns_lookup _ IMAGE_CACHE_NAME (descriptor request)); simpl; [eauto|].
    destruct (net (fetches w) request) as [r|]; simpl; [|eauto].
    destruct (ok r); simpl; eauto.
  - destruct (store_match (descriptor request) (caches w)); simpl; [eauto|].
    destruct (net (fetches w) request) as [r|]; simpl; [|eauto].
    destruct (ok r); simpl; eauto.
Qed.

(** *** Navigation: network first *)


(** C6: for a same-origin navigation request whose fetch fails while some
    namespace has an entry for its descriptor, the promise settles to a
    stored entry of that descriptor (the one of the first namespace that
    has one); the handler has made two host calls, the fetch and one
    [caches.match] of the request, so none of the offline page, and no
    write. *)
Theorem navigation_offline_serves_cached request w n cache c0 :
  origin (url request) = location_origin →
  classify request = Navigation →
  net (fetches w) request = None →
  (n, cache) ∈ caches w →
  cache !! descriptor request = Some c0 →
  ∃ c w', on_fetch location_origin net request w = (RespondWith (Normal c), w')
          ∧ store_match (descriptor request) (caches w) = Some c
          ∧ (∃ n' cache', (n', cache') ∈ caches w
                          ∧ cache' !! descriptor request = Some c)
          ∧ trace w' = trace w ++ [EvFetch request; EvCachesMatch (ByRequest request)]
          ∧ (EvCachesMatch (ByUrl OFFLINE_URL)
               ∉ [EvFetch request; EvCachesMatch (ByRequest request)])
          ∧ caches w' = caches w ∧ pending w' = pending w.
Proof.
  intros Ho Hc%classify_Navigation Hnet Hin Hk.
  destruct (store_match_is_Some _ _ _ _ _ Hin Hk) as [c Hm].
  exists c. unfold on_fetch. rewrite (same_origin_eqb _ Ho), Hc. run_handler.
  rewrite Hnet. simpl. rewrite Hm. simpl.
  eexists. split; [reflexivity|]. simpl.
  split; [done|]. split; [by apply store_match_Some|].
  split; [by rewrite <- app_assoc|]. split; [|done].
  intros H. repeat (apply elem_of_cons in H as [H|H]; [discriminate H|]).
  by apply elem_of_nil in H.
Qed.

(** C7: for a same-origin navigation request whose fetch fails while no
    namespace has an entry for its descriptor, the promise settles to the
    stored offline page when a namespace has one, and otherwise to the
    synthesized plain-text response with status 503. *)
Theorem navigation_offline_fallback request w :
  origin (url request) = location_origin →
  classify request = Navigation →
  net (fetches w) request = None →
  (∀ n cache, (n, cache) ∈ caches w → cache !! descriptor request = None) →
  let offline_key := descriptor (new_Request (resolve location_origin OFFLINE_URL)) in
  ∃ r w', on_fetch location_origin net request w = (RespondWith (Normal r), w')
          ∧ (∀ n cache page,
               (n, cache) ∈ caches w → cache !! offline_key = Some page →
               store_match offline_key (caches w) = Some r
               ∧ ∃ n' cache', (n', cache') ∈ caches w ∧ cache' !! offline_key = Some r)
          ∧ ((∀ n cache, (n, cache) ∈ caches w → cache !! offline_key = None) →
             r = offline_text_response
             ∧ status r = 503
             ∧ header_get "Content-Type" (headers r)
               = Some "text/plain; charset=utf-8").
Proof.
  intros Ho Hc%classify_Navigation Hnet Hnone offline_key.
  apply store_match_None in Hnone.
  unfold on_fetch. rewrite (same_origin_eqb _ Ho), Hc. run_handler.
  rewrite Hnet. simpl. rewrite Hnone. simpl.
  fold offline_key.
  destruct (store_match offline_key (caches w)) as [page|] eqn:Hoff; simpl.
  - exists page. eexists. split; [reflexivity|]. split.
    + intros _ _ _ _ _. split; [done|]. by apply store_match_Some.
    + intros Habs. apply store_match_None in Habs. congruence.
  - exists offline_text_response. eexists. split; [reflexivity|]. split.
    + intros n cache page Hin Hk.
      destruct (store_match_is_Some _ _ _ _ _ Hin Hk) as [? ?]. congruence.
    + done.
Qed.

(** *** Images: cache first, in the image namespace *)

(** C5: for a same-origin image request, an entry of its descriptor in
    the image namespace is what the promise settles to, and the handler
    has then called the host twice, to open the namespace and to look the
    request up, so the network not at all; with no such entry and a fetch
    that fails, the promise settles to the synthesized SVG placeholder,
    whose content type is image/svg+xml. *)
Theorem image_cache_first request w :
  origin (url request) = location_origin →
  classify request = Image →
  (∀ c, ns_lookup (caches w) IMAGE_CACHE_NAME (descriptor request) = Some c →
        ∃ w', on_fetch location_origin net request w = (RespondWith (Normal c), w')
              ∧ fetches w' = fetches w
              ∧ trace w' = trace w ++ [EvOpen IMAGE_CACHE_NAME;
                                       EvCacheMatch IMAGE_CACHE_NAME request])
  ∧ (ns_lookup (caches w) IMAGE_CACHE_NAME (descriptor request) = None →
     net (fetches w) request = None →
     ∃ w', on_fetch location_origin net request w
             = (RespondWith (Normal placeholder_response), w')
           ∧ header_get "Content-Type" (headers placeholder_response)
             = Some "image/svg+xml").
Proof.
  intros Ho [Hm Hd]%classify_Image. split.
  - intros c Hc. unfold on_fetch. rewrite (same_origin_eqb _ Ho), Hm, Hd.
    run_handler. rewrite ns_lookup_open, Hc. simpl.
    eexists. split; [reflexivity|]. simpl. split; [done|].
    by rewrite <- app_assoc.
  - intros Hc Hnet. unfold on_fetch. rewrite (same_origin_eqb _ Ho), Hm, Hd.
    run_handler. rewrite ns_lookup_open, Hc. simpl. rewrite Hnet. simpl.
    eexists. split; reflexivity.
Qed.

(** *** Other requests: cache first, over every namespace *)


(** *** Writes *)

(** Closes [l' = l ++ ?t] when [l'] is [l] followed by the new items. *)
Ltac new_items :=
  first [ exact (eq_sym (app_nil_r _))
        | rewrite <- ?app_assoc; simpl; reflexivity ].

(** Splits a membership in an explicit list into its cases, dropping the
    impossible ones. *)
Ltac mem_cases H :=
  repeat (apply elem_of_cons in H as [H|H]; [try discriminate H|]);
  try (apply elem_of_nil in H; destruct H).

Ltac puts_ok :=
  eexists; eexists; (split; [new_items|]); (split; [new_items|]);
  split; [intros ? ? ? H; mem_cases H; injection H as -> -> ->; assumption|];
  split; [intros ? H; try destruct (storable _ _);
          mem_cases H; subst; simpl; assumption|];
  split; [intros ? ?; try apply ns_lookup_open; reflexivity|];
  intros r0 Hin Hn Hf;
  first [ congruence
        | solve [mem_cases Hin]
        | injection Hn as Hn; subst r0;
          split; [reflexivity|]; split; [reflexivity|];
          intros ? ? ? H; mem_cases H ].

(** C10: in one run of the fetch handler, every [cache.put] it calls
    carries an ok response, the puts (all detached) are its only writes,
    and a network response that is not ok is what the promise settles to
    while no put is issued for it, in each of the three categories. *)
Theorem fetch_handler_puts_only_ok request w out w' :
  on_fetch location_origin net request w = (out, w') →
  ∃ t ps,
    trace w' = trace w ++ t
    ∧ pending w' = pending w ++ ps
    ∧ (∀ name q r, EvPut name q r ∈ t → ok r = true)
    ∧ (∀ p, p ∈ ps → ok (p_response p) = true)
    ∧ (∀ name k, ns_lookup (caches w') name k = ns_lookup (caches w) name k)
    ∧ (∀ r, EvFetch request ∈ t →
            net (fetches w) request = Some r → ok r = false →
            out = RespondWith (Normal r)
            ∧ ps = []
            ∧ ∀ name q r', EvPut name q r' ∉ t).
Proof.
  unfold on_fetch.
  destruct (negb (String.eqb (origin (url request)) location_origin)).
  { intros [= <- <-]. puts_ok. }
  destruct (String.eqb (mode request) "navigate");
    [|destruct (String.eqb (destination request) "image")]; run_handler.
  - destruct (net (fetches w) request) as [r|] eqn:Hnet; simpl.
    + destruct (ok r) eqn:Hok; simpl; intros [= <- <-]; simpl; puts_ok.
    + destruct (store_match (descriptor request) (caches w)); simpl;
        [|destruct (store_match _ (caches w)); simpl];
        intros [= <- <-]; simpl; puts_ok.
  - rewrite ns_lookup_open.
    destruct (ns_lookup (caches w) IMAGE_CACHE_NAME (descriptor request)); simpl.
    + intros [= <- <-]; simpl. puts_ok.
    + destruct (net (fetches w) request) as [r|] eqn:Hnet; simpl;
        [destruct (ok r) eqn:Hok; simpl|];
        intros [= <- <-]; simpl; puts_ok.
  - destruct (store_match (descriptor request) (caches w)); simpl.
    + intros [= <- <-]; simpl. puts_ok.
    + destruct (net (fetches w) request) as [r|] eqn:Hnet; simpl;
        [destruct (ok r) eqn:Hok; simpl|];
        intros [= <- <-]; simpl; puts_ok.
Qed.

End FetchHandler.

(** ** The lifecycle handlers *)

Section Activate.
Implicit Types (w : World) (cs : CacheStorage).

(** [Promise.all] over the deletions: every call is issued, in order. *)
Lemma delete_all_run names w :
  ∃ bs, all_map caches_delete names w =
          (Normal bs,
           {| caches := delete_all names (caches w); pending := pending w;
              fetches := fetches w; trace := trace w ++ map EvDelete names |}).
Proof.
  revert w. induction names as [|n names IH]; intros w; simpl.
  - exists []. unfold ret. destruct w; simpl. by rewrite app_nil_r.
  - unfold bind at 1. unfold caches_delete at 1.
    destruct (IH (log (EvDelete n) (with_caches (store_delete n (caches w)) w)))
      as [bs Hbs].
    eexists. unfold bind. rewrite Hbs. unfold ret. simpl.
    by rewrite <- app_assoc.
Qed.

Lemma ns_find_delete_all names cs name :
  ns_find name (delete_all names cs) =
    if bool_decide (name ∈ names) then None else ns_find name cs.
Proof.
  revert cs. unfold delete_all.
  induction names as [|n names IH]; intros cs; cbn [fold_left].
  - case_bool_decide as H; [|done]. by apply elem_of_nil in H.
  - rewrite IH, ns_find_delete.
    destruct (decide (name ∈ names)) as [Hin|Hin].
    + rewrite (bool_decide_eq_true_2 _ Hin).
      rewrite bool_decide_eq_true_2; [done|]. by right.
    + rewrite (bool_decide_eq_false_2 _ Hin).
      destruct (String.eqb_spec name n) as [E|Hne].
      * rewrite bool_decide_eq_true_2; [done|]. rewrite E. left.
      * rewrite bool_decide_eq_false_2; [done|].
        intros [?|?]%elem_of_cons; done.
Qed.

Lemma store_keys_delete_all names cs name :
  name ∈ store_keys (delete_all names cs) ↔
  name ∈ store_keys cs ∧ name ∉ names.
Proof.
  revert cs. induction names as [|n names IH]; intros cs; simpl.
  - split; [|by intros [? _]]. intros H. split; [done|]. apply not_elem_of_nil.
  - unfold delete_all in *. simpl. rewrite IH, store_keys_delete.
    rewrite not_elem_of_cons. tauto.
Qed.

Lemma stale_spec prefix static image name :
  stale prefix static image name = true ↔
  startsWith name prefix = true ∧ name ≠ static ∧ name ≠ image.
Proof.
  unfold stale. rewrite !andb_true_iff, !negb_true_iff, !String.eqb_neq. tauto.
Qed.

(** What one activation does, for any prefix and pair of current names:
    after one [caches.keys], it deletes the names that pass the filter,
    and those only, and claims the clients. *)
Lemma activate_with_run prefix static image w :
  let deleted := List.filter (stale prefix static image) (store_keys (caches w)) in
  activate_with prefix static image w =
    (Normal tt,
     {| caches := delete_all deleted (caches w); pending := pending w;
        fetches := fetches w;
        trace := trace w ++ EvKeys :: map EvDelete deleted ++ [EvClaim] |}).
Proof.
  intros deleted. unfold activate_with, bind at 1, caches_keys at 1.
  fold deleted. destruct (delete_all_run deleted (log EvKeys w)) as [bs Hbs].
  unfold bind. rewrite Hbs. unfold clients_claim, emit, log. simpl.
  by rewrite <- !app_assoc.
Qed.

(** C2: activation deletes a namespace if and only if its name starts
    with the site's prefix and is neither the current static name nor the
    current image name, and the namespaces it keeps are as they were; for
    the worker of a site whose current names are site-v2 and images-v1,
    and whose prefix site-v1 matches, activation on the namespaces
    site-v1, site-v2, images-v1 deletes site-v1 and nothing else. *)
Theorem activate_deletes_exactly_stale :
  (∀ w, ∃ w' deleted,
     on_activate w = (Normal tt, w')
     ∧ trace w' = trace w ++ EvKeys :: map EvDelete deleted ++ [EvClaim]
     ∧ (∀ name, name ∈ deleted ↔
          name ∈ store_keys (caches w)
          ∧ startsWith name "cafe-serenity-" = true
          ∧ name ≠ CACHE_NAME ∧ name ≠ IMAGE_CACHE_NAME)
     ∧ (∀ name, name ∈ store_keys (caches w') ↔
          name ∈ store_keys (caches w) ∧ name ∉ deleted)
     ∧ (∀ name, name ∉ deleted →
          ns_find name (caches w') = ns_find name (caches w)))
  ∧ (∀ prefix c1 c2 c3 w,
       startsWith "site-v1" prefix = true →
       caches w = [("site-v1", c1); ("site-v2", c2); ("images-v1", c3)] →
       ∃ w', activate_with prefix "site-v2" "images-v1" w = (Normal tt, w')
             ∧ caches w' = [("site-v2", c2); ("images-v1", c3)]
             ∧ trace w' = trace w ++ [EvKeys; EvDelete "site-v1"; EvClaim]).
Proof.
  split.
  - intros w. unfold on_activate. rewrite activate_with_run.
    eexists. eexists. split; [reflexivity|]. simpl. split; [done|].
    split; [|split].
    + intros name.
      rewrite list_elem_of_In, filter_In, <- list_elem_of_In, stale_spec. tauto.
    + intros name. apply store_keys_delete_all.
    + intros name Hnot. rewrite ns_find_delete_all.
      by rewrite bool_decide_eq_false_2.
  - intros prefix c1 c2 c3 w Hp Hcs. rewrite activate_with_run, Hcs.
    assert (stale prefix "site-v2" "images-v1" "site-v1" = true) as H1
      by (apply stale_spec; done).
    assert (stale prefix "site-v2" "images-v1" "site-v2" = false) as H2
      by (apply not_true_is_false; rewrite stale_spec; tauto).
    assert (stale prefix "site-v2" "images-v1" "images-v1" = false) as H3
      by (apply not_true_is_false; rewrite stale_spec; tauto).
    cbn [store_keys map fst List.filter]. rewrite H1, H2, H3.
    eexists. split; [reflexivity|]. done.
Qed.

End Activate.

Section Install.
Variable location_origin : string.
Variable net : nat → Request → option Response.
Implicit Types (w : World) (manifest : list URL).

(** The fetches of [addAll]: the [i]-th request gets the answer of the
    network to the [i]-th fetch from now, and no cache is touched. *)
Lemma fetch_all_run (reqs : list Request) w :
  all_map (try_fetch net) reqs w =
    (Normal (imap (fun i q => net (fetches w + i) q) reqs),
     {| caches := caches w; pending := pending w;
        fetches := fetches w + List.length reqs;
        trace := trace w ++ map EvFetch reqs |}).
Proof.
  revert w. induction reqs as [|q reqs IH]; intros w.
  - simpl. unfold ret. destruct w; simpl.
    by rewrite app_nil_r, Nat.add_0_r.
  - cbn [all_map]. unfold bind at 1.
    assert (try_fetch net q w =
              (Normal (net (fetches w) q),
               log (EvFetch q)
                 {| caches := caches w; pending := pending w;
                    fetches := S (fetches w); trace := trace w |})) as ->.
    { unfold try_fetch, try_catch, bind, fetch, ret.
      by destruct (net (fetches w) q). }
    unfold bind. rewrite IH. unfold ret. simpl.
    rewrite <- app_assoc, Nat.add_0_r, Nat.add_succ_r. simpl.
    do 3 f_equal. apply imap_ext. intros i x _. simpl.
    by rewrite Nat.add_succ_r.
Qed.

Lemma addAll_entries_failed (reqs : list Request) rs i :
  rs !! i = Some None → addAll_entries reqs rs = None.
Proof.
  revert rs i. induction reqs as [|q reqs IH]; intros [|o rs] i H; try done.
  destruct i as [|i]; simpl in *.
  - by injection H as ->.
  - destruct o as [r|]; [|done]. destruct (ok r); [|done].
    by rewrite (IH _ _ H).
Qed.

(** One failed fetch makes [addAll] throw with the storage as it was. *)
Lemma addAll_fails cache manifest w i u :
  manifest !! i = Some u →
  net (fetches w + i) (new_Request u) = None →
  ∃ w', cache_addAll net cache manifest w = (Thrown TypeError, w')
        ∧ caches w' = caches w ∧ pending w' = pending w.
Proof.
  intros Hi Hnet. unfold cache_addAll, bind at 1, emit.
  unfold bind. rewrite fetch_all_run.
  rewrite (addAll_entries_failed _ _ i).
  - unfold throw. eexists. split; [reflexivity|]. done.
  - rewrite list_lookup_imap, list_lookup_fmap, Hi. simpl.
    by rewrite Hnet.
Qed.

(** C3: when the fetch of any URL of the manifest fails, the install
    promise rejects, and no namespace has gained or lost an entry, so the
    static namespace is not left partly filled; so it is for a manifest of
    five URLs of which the third fetch fails. *)
Theorem install_all_or_nothing :
  (∀ manifest w i u,
     manifest !! i = Some u →
     net (fetches w + i) (new_Request u) = None →
     ∃ w', on_install_with location_origin net manifest w = (Thrown TypeError, w')
           ∧ (∀ name k, ns_lookup (caches w') name k = ns_lookup (caches w) name k)
           ∧ pending w' = pending w)
  ∧ (∀ u1 u2 u3 u4 u5 w,
       net (fetches w + 2) (new_Request u3) = None →
       ∃ w', on_install_with location_origin net [u1; u2; u3; u4; u5] w
               = (Thrown TypeError, w')
             ∧ (∀ k, ns_lookup (caches w') CACHE_NAME k
                     = ns_lookup (caches w) CACHE_NAME k)).
Proof.
  assert (∀ manifest w i u,
     manifest !! i = Some u →
     net (fetches w + i) (new_Request u) = None →
     ∃ w', on_install_with location_origin net manifest w = (Thrown TypeError, w')
           ∧ (∀ name k, ns_lookup (caches w') name k = ns_lookup (caches w) name k)
           ∧ pending w' = pending w) as general.
  { intros manifest w i u Hi Hnet.
    unfold on_install_with, caches_open, install_body.
    destruct (addAll_fails CACHE_NAME manifest
                (log EvSkipWaiting
                   (log (EvOpen CACHE_NAME)
                      (with_caches (store_open CACHE_NAME (caches w)) w)))
                i u Hi Hnet)
      as (w1 & Hrun & Hcs & Hps).
    unfold bind. rewrite Hrun. eexists. split; [reflexivity|]. simpl.
    rewrite Hcs, Hps. simpl. split; [|done].
    intros name k. apply ns_lookup_open. }
  split; [exact general|].
  intros u1 u2 u3 u4 u5 w Hnet.
  destruct (general [u1; u2; u3; u4; u5] w 2 u3 eq_refl Hnet) as (w' & Hrun & Hcs & _).
  exists w'. split; [done|]. intros k. apply Hcs.
Qed.

End Install.

(** ** Worked runs *)

(** A font request to another origin, with a store that has entries. *)
Lemma cross_origin_pass_through_witness :
  on_fetch site offline foreign_request visited_world
  = (PassThrough, visited_world).
Proof.
  apply (cross_origin_pass_through site offline foreign_request visited_world).
  discriminate.
Defined.

(** A page request with the network down and an empty store. *)
Lemma same_origin_always_responds_witness :
  ∃ r w', on_fetch site offline page_request empty_world
          = (RespondWith (Normal r), w').
Proof.
  apply (same_origin_always_responds site offline page_request empty_world).
  reflexivity.
Defined.



(** A page visited before, asked for again with the network down. *)
Lemma navigation_offline_serves_cached_witness :
  ∃ c w', on_fetch site offline page_request visited_world
          = (RespondWith (Normal c), w')
          ∧ store_match (descriptor page_request) (caches visited_world) = Some c
          ∧ (∃ n' cache', (n', cache') ∈ caches visited_world
                          ∧ cache' !! descriptor page_request = Some c)
          ∧ trace w' = trace visited_world
                       ++ [EvFetch page_request; EvCachesMatch (ByRequest page_request)]
          ∧ (EvCachesMatch (ByUrl OFFLINE_URL)
               ∉ [EvFetch page_request; EvCachesMatch (ByRequest page_request)])
          ∧ caches w' = caches visited_world ∧ pending w' = pending visited_world.
Proof.
  apply (navigation_offline_serves_cached site offline page_request visited_world
           CACHE_NAME {[ descriptor page_request := old_page ]} old_page).
  - reflexivity.
  - reflexivity.
  - reflexivity.
  - left.
  - vm_compute. reflexivity.
Defined.

(** The store with the offline page has no entry for the page. *)
Lemma no_entry_for_page_request :
  ∀ n (cache : Cache),
    (n, cache) ∈ caches offline_ready_world →
    cache !! descriptor page_request = None.
Proof.
  intros n cache H. apply elem_of_cons in H as [H|H].
  - injection H as -> ->. vm_compute. reflexivity.
  - by apply elem_of_nil in H.
Defined.

(** A page never visited, asked for with the network down: with the
    offline page in the static namespace, and with an empty store. *)
Lemma navigation_offline_fallback_witness :
  (∃ w', on_fetch site offline page_request offline_ready_world
         = (RespondWith (Normal offline_page), w'))
  ∧ (∃ w', on_fetch site offline page_request empty_world
           = (RespondWith (Normal offline_text_response), w')).
Proof.
  split.
  - destruct (navigation_offline_fallback site offline page_request
                offline_ready_world eq_refl eq_refl eq_refl
                no_entry_for_page_request)
      as (r & w' & Hrun & Hpresent & _).
    destruct (Hpresent CACHE_NAME {[ offline_key := offline_page ]} offline_page)
      as [Hfirst _].
    + left.
    + vm_compute. reflexivity.
    + vm_compute in Hfirst. injection Hfirst as <-. exists w'. exact Hrun.
  - destruct (navigation_offline_fallback site offline page_request
                empty_world eq_refl eq_refl eq_refl)
      as (r & w' & Hrun & _ & Habsent).
    + intros n cache H. by apply elem_of_nil in H.
    + destruct Habsent as [-> _].
      * intros n cache H. by apply elem_of_nil in H.
      * exists w'. exact Hrun.
Defined.

(** An image that the image namespace has, and an image that no namespace
    has, asked for with the network down. *)
Lemma image_cache_first_witness :
  (∃ w', on_fetch site (always latte_fresh) image_request image_cached_world
         = (RespondWith (Normal latte_png), w')
         ∧ fetches w' = fetches image_cached_world
         ∧ trace w' = trace image_cached_world
                      ++ [EvOpen IMAGE_CACHE_NAME;
                          EvCacheMatch IMAGE_CACHE_NAME image_request])
  ∧ (∃ w', on_fetch site offline image_request empty_world
           = (RespondWith (Normal placeholder_response), w')
           ∧ header_get "Content-Type" (headers placeholder_response)
             = Some "image/svg+xml").
Proof.
  split.
  - apply (proj1 (image_cache_first site (always latte_fresh) image_request
                    image_cached_world eq_refl eq_refl) latte_png).
    vm_compute. reflexivity.
  - apply (proj2 (image_cache_first site offline image_request
                    empty_world eq_refl eq_refl)); reflexivity.
Defined.




(** A page request answered with a 404: returned, and no put. *)
Lemma fetch_handler_puts_only_ok_witness :
  fst (on_fetch site (always page_404) page_request empty_world)
  = RespondWith (Normal page_404)
  ∧ pending (snd (on_fetch site (always page_404) page_request empty_world)) = []
  ∧ ∀ name q r,
      EvPut name q r
      ∉ trace (snd (on_fetch site (always page_404) page_request empty_world)).
Proof.
  destruct (fetch_handler_puts_only_ok site (always page_404) page_request
              empty_world _ _
              (surjective_pairing
                 (on_fetch site (always page_404) page_request empty_world)))
    as (t & ps & Ht & Hps & _ & _ & _ & Hnot_ok).
  vm_compute in Ht, Hps. subst t ps.
  destruct (Hnot_ok page_404) as (Hout & _ & Hno_put);
    [left|reflexivity|reflexivity|].
  split; [exact Hout|]. split; [reflexivity|]. exact Hno_put.
Defined.

(** Puts that the host does not accept: a page answered with a partial
    content, a page whose answer varies on everything, and a form
    submission answered with a 200 each get the network response, the put
    is issued, and no write is in flight afterwards. *)
Example navigation_put_not_accepted :
  Forall
    (fun run : Request * Response =>
       let (request, r) := run in
       ok r = true
       ∧ fst (on_fetch site (always r) request empty_world)
         = RespondWith (Normal r)
       ∧ trace (snd (on_fetch site (always r) request empty_world))
         = [EvFetch request; EvOpen CACHE_NAME; EvPut CACHE_NAME request r]
       ∧ pending (snd (on_fetch site (always r) request empty_world)) = [])
    [(page_request, page_206); (page_request, page_vary_star);
     (form_post, page_200)].
Proof. repeat (apply List.Forall_cons; [vm_compute; done|]). apply List.Forall_nil. Qed.

(** The activation scenario, with the prefix site-. *)
Lemma activate_deletes_exactly_stale_witness :
  ∃ w', activate_with "site-" "site-v2" "images-v1" scenario_world = (Normal tt, w')
        ∧ caches w' = [("site-v2", ∅); ("images-v1", ∅)]
        ∧ trace w' = trace scenario_world ++ [EvKeys; EvDelete "site-v1"; EvClaim].
Proof.
  apply (proj2 activate_deletes_exactly_stale "site-" ∅ ∅ ∅ scenario_world);
    reflexivity.
Defined.

(** Five URLs, the third fetch failing. *)
Lemma install_all_or_nothing_witness :
  (∃ w', on_install_with site third_fails five_urls empty_world
         = (Thrown TypeError, w')
         ∧ (∀ name k, ns_lookup (caches w') name k
                      = ns_lookup (caches empty_world) name k)
         ∧ pending w' = pending empty_world)
  ∧ (∃ w', on_install_with site third_fails five_urls empty_world
           = (Thrown TypeError, w')
           ∧ (∀ k, ns_lookup (caches w') CACHE_NAME k
                   = ns_lookup (caches empty_world) CACHE_NAME k)).
Proof.
  split.
  - apply (proj1 (install_all_or_nothing site third_fails) five_urls empty_world
             2 (mkURL site "/css/main.css")); reflexivity.
  - apply (proj2 (install_all_or_nothing site third_fails)
             (mkURL site "/") (mkURL site "/index.html") (mkURL site "/css/main.css")
             (mkURL site "/js/main.js") (mkURL site "/offline.html") empty_world).
    reflexivity.
Defined.

(** Install on a working network: the promise fulfils, every URL of the
    manifest is in the static namespace, the offline page among them. *)
Example install_succeeds :
  fst (on_install site (always page_200) empty_world) = Normal tt
  ∧ store_keys (caches (snd (on_install site (always page_200) empty_world)))
    = [CACHE_NAME]
  ∧ Forall
      (fun u =>
         ns_lookup (caches (snd (on_install site (always page_200) empty_world)))
           CACHE_NAME (descriptor (new_Request u)) = Some page_200)
      (STATIC_CACHE_URLS site).
Proof.
  split; [vm_compute; reflexivity|]. split; [vm_compute; reflexivity|].
  unfold STATIC_CACHE_URLS.
  repeat (apply List.Forall_cons; [vm_compute; reflexivity|]).
  apply List.Forall_nil.
Qed.

(** The offline page is best effort: when only its separate fetch fails,
    the failure is logged and install fulfils all the same. *)
Example install_offline_page_best_effort :
  fst (on_install_with site sixth_fails five_urls empty_world) = Normal tt
  ∧ trace (snd (on_install_with site sixth_fails five_urls empty_world))
    = [EvOpen CACHE_NAME; EvSkipWaiting; EvAddAll CACHE_NAME five_urls]
      ++ map EvFetch (map new_Request five_urls)
      ++ [EvFetch (new_Request (resolve site OFFLINE_URL));
          EvConsoleError "Failed to cache offline page:"].
Proof. split; vm_compute; reflexivity. Qed.

(** ** Install on a network that answers *)

(** Splits a membership in an explicit list into its cases and closes the
    impossible ones. *)
Ltac explicit_mem H :=
  repeat
    match type of H with
    | _ ∈ _ :: _ => apply elem_of_cons in H as [H|H]; [try discriminate H|]
    | _ ∈ _ ++ _ => apply elem_of_app in H as [H|H]
    | _ ∈ [] => apply elem_of_nil in H; destruct H
    | _ ∈ map _ _ => apply list_elem_of_fmap in H as (? & H & _); discriminate H
    end.

Section InstallSuccess.
Variable location_origin : string.
Variable net : nat → Request → option Response.
Implicit Types (w : World) (manifest : list URL) (cs : CacheStorage).

(** The writes of a successful [addAll], as one function of the store. *)
Local Abbreviation put_all cache es store :=
  (fold_left (fun acc e => store_put cache (descriptor (fst e)) (snd e) acc)
     es store).

Lemma addAll_entries_all_ok (reqs : list Request) rs :
  List.length rs = List.length reqs →
  (∀ i o, rs !! i = Some o → ∃ r, o = Some r ∧ ok r = true) →
  ∃ es, addAll_entries reqs rs = Some es
        ∧ map fst es = reqs ∧ map (fun e => Some (snd e)) es = rs.
Proof.
  revert rs. induction reqs as [|q reqs IH]; intros [|o rs] Hlen Hok;
    try discriminate Hlen.
  - exists []. done.
  - destruct (Hok 0 o eq_refl) as (r & -> & Hr).
    destruct (IH rs) as (es & Hes & Hfst & Hsnd).
    + by injection Hlen.
    + intros i o Hi. apply (Hok (S i) o Hi).
    + exists ((q, r) :: es). simpl. rewrite Hr, Hes. simpl.
      by rewrite Hfst, Hsnd.
Qed.

Lemma ns_find_put_all_is_Some cache es cs name :
  is_Some (ns_find name cs) → is_Some (ns_find name (put_all cache es cs)).
Proof.
  revert cs. induction es as [|e es IH]; intros cs H; simpl; [done|].
  apply IH. by apply ns_find_put_is_Some.
Qed.

(** Entries that no write of the list is for are as they were. *)
Lemma ns_lookup_put_all_other cache es cs name k :
  name ≠ cache ∨ (∀ e, e ∈ es → descriptor (fst e) ≠ k) →
  ns_lookup (put_all cache es cs) name k = ns_lookup cs name k.
Proof.
  revert cs. induction es as [|e es IH]; intros cs H; simpl; [done|].
  rewrite IH.
  - rewrite ns_lookup_put. rewrite decide_False; [done|].
    intros (-> & -> & _). destruct H as [H|H]; [done|].
    apply (H e); [left|done].
  - destruct H as [H|H]; [by left|right]. intros e' He'. apply H. by right.
Qed.

(** The last write for a descriptor is the one that stays. *)
Lemma ns_lookup_put_all_last cache es cs i q r :
  is_Some (ns_find cache cs) →
  es !! i = Some (q, r) →
  (∀ j e, i < j → es !! j = Some e → descriptor (fst e) ≠ descriptor q) →
  ns_lookup (put_all cache es cs) cache (descriptor q) = Some r.
Proof.
  revert cs i. induction es as [|e es IH]; intros cs i Hc Hi Hlast; [done|].
  destruct i as [|i]; simpl in *.
  - injection Hi as ->. rewrite ns_lookup_put_all_other.
    + by apply ns_lookup_put_same.
    + right. intros e He. apply list_elem_of_lookup in He as [j Hj].
      apply (Hlast (S j) e); [lia|done].
  - apply (IH _ i); [by apply ns_find_put_is_Some|done|].
    intros j e' Hij Hj. apply (Hlast (S j) e'); [lia|done].
Qed.

(** One install on a network that answers every fetch of the manifest
    with an ok response: the world it ends in. *)
Lemma install_run manifest w :
  (∀ i u, manifest !! i = Some u →
          ∃ r, net (fetches w + i) (new_Request u) = Some r ∧ ok r = true) →
  let offlineRequest := new_Request (resolve location_origin OFFLINE_URL) in
  ∃ es,
    map fst es = map new_Request manifest
    ∧ (∀ i q r, es !! i = Some (q, r) → net (fetches w + i) q = Some r)
    ∧ on_install_with location_origin net manifest w =
        (Normal tt,
         let cs1 := put_all CACHE_NAME es (store_open CACHE_NAME (caches w)) in
         let t1 := trace w ++ [EvOpen CACHE_NAME; EvSkipWaiting;
                               EvAddAll CACHE_NAME manifest]
                   ++ map EvFetch (map new_Request manifest) in
         match net (fetches w + List.length manifest) offlineRequest with
         | Some r =>
             if storable offlineRequest r then
               {| caches := store_put CACHE_NAME (descriptor offlineRequest) r cs1;
                  pending := pending w;
                  fetches := S (fetches w + List.length manifest);
                  trace := t1 ++ [EvFetch offlineRequest;
                                  EvPut CACHE_NAME offlineRequest r] |}
             else
               {| caches := cs1;
                  pending := pending w;
                  fetches := S (fetches w + List.length manifest);
                  trace := t1 ++ [EvFetch offlineRequest;
                                  EvPut CACHE_NAME offlineRequest r;
                                  EvConsoleError "Failed to cache offline page:"] |}
         | None =>
             {| caches := cs1;
                pending := pending w;
                fetches := S (fetches w + List.length manifest);
                trace := t1 ++ [EvFetch offlineRequest;
                                EvConsoleError "Failed to cache offline page:"] |}
         end).
Proof.
  intros Hok offlineRequest.
  destruct (addAll_entries_all_ok (map new_Request manifest)
              (imap (fun i q => net (fetches w + i) q) (map new_Request manifest)))
    as (es & Hes & Hfst & Hsnd).
  { by rewrite length_imap. }
  { intros i o Hi. rewrite list_lookup_imap, list_lookup_fmap in Hi.
    destruct (manifest !! i) as [u|] eqn:Hu; [|done]. simpl in Hi.
    injection Hi as <-. destruct (Hok i u Hu) as (r & Hr & Hr'). eauto. }
  exists es. split; [done|]. split.
  { intros i q r Hi.
    assert (imap (fun i q => net (fetches w + i) q) (map new_Request manifest) !! i
            = Some (Some r)) as H.
    { rewrite <- Hsnd, list_lookup_fmap, Hi. done. }
    rewrite list_lookup_imap in H.
    assert (map new_Request manifest !! i = Some q) as Hq.
    { rewrite <- Hfst, list_lookup_fmap, Hi. done. }
    rewrite Hq in H. simpl in H. by injection H. }
  unfold on_install_with, caches_open, install_body.
  unfold cache_addAll, try_catch, bind, emit.
  rewrite fetch_all_run. cbn [fetches log with_caches]. rewrite Hes.
  unfold fetch, cache_put, console_error, emit. simpl.
  rewrite length_map.
  fold offlineRequest.
  destruct (net (fetches w + List.length manifest) offlineRequest) as [r|]; simpl;
    [destruct (storable offlineRequest r); simpl|];
    unfold log, with_caches; simpl; by rewrite <- !app_assoc.
Qed.

Lemma last_occurrence {A} `{EqDecision A} (x : A) (l : list A) :
  x ∈ l → ∃ i, l !! i = Some x ∧ ∀ j, i < j → l !! j ≠ Some x.
Proof.
  induction l as [|y l IH]; intros Hin; [by apply elem_of_nil in Hin|].
  destruct (decide (x ∈ l)) as [Hl|Hl].
  - destruct (IH Hl) as (i & Hi & Hlast). exists (S i). split; [done|].
    intros [|j] Hj; [lia|]. simpl. apply Hlast. lia.
  - apply elem_of_cons in Hin as [->|Hin]; [|done].
    exists 0. split; [done|]. intros [|j] Hj; [lia|]. simpl.
    intros H. apply Hl. by apply list_elem_of_lookup_2 in H.
Qed.

Lemma install_entry manifest w es i u :
  map fst es = map new_Request manifest →
  (∀ i q r, es !! i = Some (q, r) → net (fetches w + i) q = Some r) →
  manifest !! i = Some u →
  (∀ j, i < j → manifest !! j ≠ Some u) →
  ns_lookup (put_all CACHE_NAME es (store_open CACHE_NAME (caches w)))
    CACHE_NAME (descriptor (new_Request u))
  = net (fetches w + i) (new_Request u)
  ∧ is_Some (net (fetches w + i) (new_Request u)).
Proof.
  intros Hfst Hnet Hi Hlast.
  assert (∀ j e, es !! j = Some e →
                 ∃ v, manifest !! j = Some v ∧ fst e = new_Request v) as Hreq.
  { intros j e Hj.
    assert (map fst es !! j = Some (fst e)) as H
      by (by rewrite list_lookup_fmap, Hj).
    rewrite Hfst, list_lookup_fmap in H.
    destruct (manifest !! j) as [v|]; [|done]. injection H as <-. eauto. }
  assert (is_Some (es !! i)) as [[q r] Hq].
  { apply lookup_lt_is_Some.
    rewrite <- (length_map fst es), Hfst, length_map.
    by apply lookup_lt_is_Some. }
  destruct (Hreq i _ Hq) as (v & Hv & Hqv). simpl in Hqv.
  assert (v = u) as -> by congruence. subst q.
  rewrite (Hnet _ _ _ Hq). split; [|eauto].
  apply (ns_lookup_put_all_last _ _ _ i _ r); [apply ns_find_open_same|done|].
  intros j e Hij Hj Hd. destruct (Hreq j e Hj) as (v & Hvj & Hev).
  rewrite Hev in Hd. injection Hd as ->. by apply (Hlast j Hij).
Qed.

(** A URL that is not in the manifest gets no entry from [addAll]. *)
Lemma install_entry_absent manifest w es u :
  map fst es = map new_Request manifest →
  u ∉ manifest →
  ns_lookup (put_all CACHE_NAME es (store_open CACHE_NAME (caches w)))
    CACHE_NAME (descriptor (new_Request u))
  = ns_lookup (caches w) CACHE_NAME (descriptor (new_Request u)).
Proof.
  intros Hfst Hout. rewrite ns_lookup_put_all_other; [apply ns_lookup_open|].
  right. intros e He Hd.
  assert (fst e ∈ map new_Request manifest) as Hin.
  { rewrite <- Hfst. apply list_elem_of_fmap. eauto. }
  apply list_elem_of_fmap in Hin as (v & Hv & Hin). rewrite Hv in Hd.
  injection Hd as ->. done.
Qed.

(** After such an install every URL of the manifest has an entry. *)
Lemma install_fills_manifest manifest w :
  (∀ i u, manifest !! i = Some u →
          ∃ r, net (fetches w + i) (new_Request u) = Some r ∧ ok r = true) →
  ∃ w', on_install_with location_origin net manifest w = (Normal tt, w')
        ∧ ∀ u, u ∈ manifest →
               is_Some (ns_lookup (caches w') CACHE_NAME
                          (descriptor (new_Request u))).
Proof.
  intros Hok. destruct (install_run manifest w Hok) as (es & Hfst & Hnet & Hrun).
  eexists. split; [exact Hrun|]. simpl. intros u Hu.
  destruct (last_occurrence u manifest Hu) as (i & Hi & Hlast).
  destruct (install_entry manifest w es i u Hfst Hnet Hi Hlast) as [He [r Hr]].
  destruct (net (fetches w + List.length manifest)
              (new_Request (resolve location_origin OFFLINE_URL))) as [r0|]; simpl;
    [destruct (storable _ r0); simpl|].
  - rewrite ns_lookup_put. case_decide; [eauto|]. rewrite He, Hr. eauto.
  - rewrite He, Hr. eauto.
  - rewrite He, Hr. eauto.
Qed.

Lemma addAll_accepts_ok r : addAll_accepts r = true → ok r = true.
Proof. unfold addAll_accepts. by intros [[? _]%andb_prop _]%andb_prop. Qed.

(** X1: on a manifest without a repeated URL, every fetch of which the
    network answers with a response that [addAll] accepts, install
    fulfils whatever becomes of the separate fetch of the offline page
    (failed, answered, or answered with what [cache.put] does not
    accept); the static namespace then has, for every URL of the manifest
    other than the offline page, the response fetched for it, and an
    entry for the offline page if the manifest has it; the other
    namespaces are as they were and no put is in flight. *)
Theorem install_fulfils_and_fills manifest w :
  NoDup manifest →
  (∀ i u, manifest !! i = Some u →
          ∃ r, net (fetches w + i) (new_Request u) = Some r
               ∧ addAll_accepts r = true) →
  ∃ w', on_install_with location_origin net manifest w = (Normal tt, w')
        ∧ (∀ u, u ∈ manifest →
                is_Some (ns_lookup (caches w') CACHE_NAME
                           (descriptor (new_Request u))))
        ∧ (∀ i u, manifest !! i = Some u →
                  u ≠ resolve location_origin OFFLINE_URL →
                  ns_lookup (caches w') CACHE_NAME (descriptor (new_Request u))
                  = net (fetches w + i) (new_Request u))
        ∧ (∀ name k, name ≠ CACHE_NAME →
                     ns_lookup (caches w') name k = ns_lookup (caches w) name k)
        ∧ pending w' = pending w.
Proof.
  intros Hnodup Hacc.
  assert (∀ i u, manifest !! i = Some u →
                 ∃ r, net (fetches w + i) (new_Request u) = Some r ∧ ok r = true)
    as Hok.
  { intros i u Hi. destruct (Hacc i u Hi) as (r & Hr & Ha).
    exists r. split; [done|]. by apply addAll_accepts_ok. }
  assert (∀ i u, manifest !! i = Some u → ∀ j, i < j → manifest !! j ≠ Some u)
    as Hlast.
  { intros i u Hi j Hij Hj.
    pose proof (NoDup_lookup _ _ _ _ Hnodup Hi Hj). lia. }
  destruct (install_run manifest w Hok) as (es & Hfst & Hnet & Hrun).
  eexists. split; [exact Hrun|]. simpl.
  set (offlineRequest := new_Request (resolve location_origin OFFLINE_URL)).
  split; [|split; [|split]].
  - intros u Hu. apply list_elem_of_lookup in Hu as [i Hi].
    destruct (install_entry manifest w es i u Hfst Hnet Hi (Hlast i u Hi))
      as [He [r Hr]].
    destruct (net (fetches w + List.length manifest) offlineRequest) as [r0|];
      simpl; [destruct (storable offlineRequest r0); simpl|].
    + rewrite ns_lookup_put. case_decide; [eauto|]. rewrite He, Hr. eauto.
    + rewrite He, Hr. eauto.
    + rewrite He, Hr. eauto.
  - intros i u Hi Hoff.
    destruct (install_entry manifest w es i u Hfst Hnet Hi (Hlast i u Hi))
      as [He _].
    destruct (net (fetches w + List.length manifest) offlineRequest) as [r0|];
      simpl; [destruct (storable offlineRequest r0); simpl|]; try done.
    rewrite ns_lookup_put. rewrite decide_False; [done|].
    intros (_ & [= ->] & _). done.
  - intros name k Hname.
    destruct (net (fetches w + List.length manifest) offlineRequest) as [r0|];
      simpl; [destruct (storable offlineRequest r0); simpl|].
    + rewrite ns_lookup_put. rewrite decide_False; [|tauto].
      rewrite ns_lookup_put_all_other by (by left). apply ns_lookup_open.
    + rewrite ns_lookup_put_all_other by (by left). apply ns_lookup_open.
    + rewrite ns_lookup_put_all_other by (by left). apply ns_lookup_open.
  - destruct (net (fetches w + List.length manifest) offlineRequest) as [r0|];
      [destruct (storable offlineRequest r0)|]; done.
Qed.

(** X2: after such an [addAll] the offline page is best effort, and its
    put is not guarded by the ok flag.  When the separate fetch is
    answered with a response that [cache.put] accepts (status not 206,
    no [Vary: *]), the answer is stored under the offline key even if it
    is not ok, over what the manifest left there, and nothing is logged.
    When the fetch fails, or its answer is one that [cache.put] rejects,
    the error is caught and logged, the offline key keeps what [addAll]
    left there (the response fetched for the offline page as a URL of
    the manifest, or what was there before when the manifest does not
    have it), and install fulfils all the same; no put is called when
    the fetch fails. *)
Theorem install_offline_page_put manifest w :
  NoDup manifest →
  (∀ i u, manifest !! i = Some u →
          ∃ r, net (fetches w + i) (new_Request u) = Some r
               ∧ addAll_accepts r = true) →
  let offlineRequest := new_Request (resolve location_origin OFFLINE_URL) in
  let answer := net (fetches w + List.length manifest) offlineRequest in
  ∃ w' t, on_install_with location_origin net manifest w = (Normal tt, w')
          ∧ trace w' = trace w ++ t
          ∧ (∀ r, answer = Some r → status r ≠ 206 → vary_star r = false →
                  ns_lookup (caches w') CACHE_NAME (descriptor offlineRequest)
                  = Some r
                  ∧ EvConsoleError "Failed to cache offline page:" ∉ t)
          ∧ (answer = None
             ∨ (∃ r, answer = Some r ∧ (status r = 206 ∨ vary_star r = true)) →
             EvConsoleError "Failed to cache offline page:" ∈ t
             ∧ (∀ i, manifest !! i = Some (resolve location_origin OFFLINE_URL) →
                     ns_lookup (caches w') CACHE_NAME (descriptor offlineRequest)
                     = net (fetches w + i) offlineRequest)
             ∧ (resolve location_origin OFFLINE_URL ∉ manifest →
                ns_lookup (caches w') CACHE_NAME (descriptor offlineRequest)
                = ns_lookup (caches w) CACHE_NAME (descriptor offlineRequest)))
          ∧ (answer = None → ∀ name q r, EvPut name q r ∉ t).
Proof.
  intros Hnodup Hacc offlineRequest answer.
  assert (∀ i u, manifest !! i = Some u →
                 ∃ r, net (fetches w + i) (new_Request u) = Some r ∧ ok r = true)
    as Hok.
  { intros i u Hi. destruct (Hacc i u Hi) as (r & Hr & Ha).
    exists r. split; [done|]. by apply addAll_accepts_ok. }
  assert (∀ i u, manifest !! i = Some u → ∀ j, i < j → manifest !! j ≠ Some u)
    as Hlast.
  { intros i u Hi j Hij Hj.
    pose proof (NoDup_lookup _ _ _ _ Hnodup Hi Hj). lia. }
  destruct (install_run manifest w Hok) as (es & Hfst & Hnet & Hrun).
  fold offlineRequest in Hrun. fold answer in Hrun.
  assert (∀ cs,
            cs = put_all CACHE_NAME es (store_open CACHE_NAME (caches w)) →
            (∀ i, manifest !! i = Some (resolve location_origin OFFLINE_URL) →
                  ns_lookup cs CACHE_NAME (descriptor offlineRequest)
                  = net (fetches w + i) offlineRequest)
            ∧ (resolve location_origin OFFLINE_URL ∉ manifest →
               ns_lookup cs CACHE_NAME (descriptor offlineRequest)
               = ns_lookup (caches w) CACHE_NAME (descriptor offlineRequest)))
    as Hleft.
  { intros cs ->. split.
    - intros i Hi.
      by destruct (install_entry manifest w es i _ Hfst Hnet Hi (Hlast i _ Hi)).
    - intros Hout. by apply (install_entry_absent manifest). }
  assert (storable offlineRequest = fun r =>
            negb (Nat.eqb (status r) 206) && negb (vary_star r)) as Hst by done.
  destruct answer as [r0|] eqn:Hoff.
  - destruct (storable offlineRequest r0) eqn:Hs.
    + eexists. eexists. split; [exact Hrun|]. simpl.
      split; [by rewrite <- !app_assoc|]. split; [|split; [|done]].
      * intros r [= <-] _ _. split.
        -- apply ns_lookup_put_same.
           apply ns_find_put_all_is_Some, ns_find_open_same.
        -- intros H. explicit_mem H.
      * intros [[=]|(r & [= <-] & Hbad)]. rewrite Hst in Hs.
        apply andb_prop in Hs as [H206 Hv].
        destruct Hbad as [Hbad|Hbad].
        -- rewrite Hbad in H206. done.
        -- rewrite Hbad in Hv. done.
    + eexists. eexists. split; [exact Hrun|]. simpl.
      split; [by rewrite <- !app_assoc|]. split; [|split; [|done]].
      * intros r [= <-] H206 Hv.
        rewrite (storable_true offlineRequest r0 eq_refl H206 Hv) in Hs. done.
      * intros _. split; [|by apply Hleft].
        rewrite !elem_of_app, !elem_of_cons. intuition congruence.
  - eexists. eexists. split; [exact Hrun|]. simpl.
    split; [by rewrite <- !app_assoc|]. split; [done|]. split.
    + intros _. split; [|by apply Hleft].
      rewrite !elem_of_app, !elem_of_cons. intuition congruence.
    + intros _ name q r H. explicit_mem H.
Qed.

End InstallSuccess.

(** ** Activation, again *)

Lemma filter_none {A} (f : A → bool) (l : list A) :
  (∀ x, x ∈ l → f x = false) → List.filter f l = [].
Proof.
  induction l as [|x l IH]; intros H; simpl; [done|].
  rewrite (H x) by left. apply IH. intros y Hy. apply H. by right.
Qed.

(** X3: activation is idempotent: a second activation, run on what the
    first one left, deletes nothing and leaves the storage as it is; and
    an activation issues no fetch and no put. *)
Theorem activate_idempotent (w : World) :
  on_activate (snd (on_activate w))
  = (Normal tt, log EvClaim (log EvKeys (snd (on_activate w))))
  ∧ fetches (snd (on_activate w)) = fetches w
  ∧ pending (snd (on_activate w)) = pending w.
Proof.
  unfold on_activate. rewrite !activate_with_run. simpl. split; [|done].
  rewrite filter_none.
  - simpl. unfold log. simpl. by rewrite <- !app_assoc.
  - intros name Hin. apply store_keys_delete_all in Hin as [Hin Hnot].
    apply not_true_is_false. intros Hstale. apply Hnot.
    apply list_elem_of_In, filter_In. split; [by apply list_elem_of_In|done].
Qed.

(** ** The fetch handler: what a request leaves behind *)

(** Closes the account of one run once its trace is explicit. *)
Ltac footprint :=
  eexists;
  (split; [rewrite <- ?app_assoc; simpl; reflexivity|]); simpl;
  (split; [lia|]);
  (split; [solve [by left | right; eexists; done]|]);
  (split; [by rewrite ?app_nil_r|]);
  first [ rewrite bool_decide_eq_true_2 by done; reflexivity
        | rewrite bool_decide_eq_false_2 by done; reflexivity
        | reflexivity ].

Section FetchEffects.
Variable location_origin : string.
Variable net : nat → Request → option Response.
Implicit Types (request : Request) (w : World) (r : Response)
  (cs : CacheStorage).

(** What a namespace holds after a series of writes depends on that
    namespace only. *)
Lemma ns_find_settle_congruence (ps : list PendingPut) cs1 cs2 name :
  ns_find name cs1 = ns_find name cs2 →
  ns_find name (fold_left (fun cs p => land p cs) ps cs1)
  = ns_find name (fold_left (fun cs p => land p cs) ps cs2).
Proof.
  revert cs1 cs2. induction ps as [|p ps IH]; intros cs1 cs2 H; simpl; [done|].
  apply IH. unfold land. rewrite !ns_find_put.
  destruct (String.eqb_spec name (p_cache p)) as [->|_]; [|done].
  by rewrite H.
Qed.

Lemma ns_find_open_other name cs name' :
  name' ≠ name → ns_find name' (store_open name cs) = ns_find name' cs.
Proof.
  intros Hne. unfold store_open. destruct (ns_find name cs); [done|].
  rewrite ns_find_app. destruct (ns_find name' cs); [done|]. simpl.
  destruct (String.eqb_spec name name'); congruence.
Qed.

(** X4: an image request that the image namespace has no entry for is
    fetched, and the network response is what the promise settles to.
    When the response is ok, and the host accepts its put (the method is
    GET, the status is not 206, there is no [Vary: *]), and no put in
    flight rivals it, the image namespace has the response once the puts
    have landed, in whatever order they do; when the response is not ok
    no write is left in flight.  The run itself changes no entry of any
    namespace, and a write it leaves in flight is for the image
    namespace. *)
Theorem image_miss_fetches_and_stores request w r :
  origin (url request) = location_origin →
  classify request = Image →
  ns_lookup (caches w) IMAGE_CACHE_NAME (descriptor request) = None →
  net (fetches w) request = Some r →
  ∃ w', on_fetch location_origin net request w = (RespondWith (Normal r), w')
        ∧ fetches w' = S (fetches w)
        ∧ (ok r = true →
           method request = "GET" → status r ≠ 206 → vary_star r = false →
           unrivalled IMAGE_CACHE_NAME (descriptor request) r w →
           ∀ order, completion_order order w' →
                    ns_lookup (settled_in order (caches w')) IMAGE_CACHE_NAME
                      (descriptor request) = Some r)
        ∧ (ok r = false → pending w' = pending w)
        ∧ (∀ name k, ns_lookup (caches w') name k = ns_lookup (caches w) name k)
        ∧ ∃ ps, pending w' = pending w ++ ps
                ∧ ∀ p, p ∈ ps → p_cache p = IMAGE_CACHE_NAME.
Proof.
  intros Ho [Hm Hd]%classify_Image Hmiss Hnet.
  unfold on_fetch. rewrite (same_origin_eqb _ _ Ho), Hm, Hd. run_handler.
  rewrite ns_lookup_open, Hmiss. simpl. rewrite Hnet. simpl.
  destruct (ok r); simpl.
  - eexists. split; [reflexivity|]. simpl. split; [done|].
    split; [|split; [done|split]].
    + intros _ Hget Hst Hv Hun order Hord.
      unfold completion_order in Hord. simpl in Hord.
      rewrite (storable_true _ _ Hget Hst Hv) in Hord.
      apply (issued_put_settles _ _ _ _ (pending w));
        [apply ns_find_open_same|exact Hun|exact Hord].
    + intros name k. apply ns_lookup_open.
    + eexists. split; [reflexivity|]. intros p Hp.
      destruct (storable request r); explicit_mem Hp. by subst p.
  - eexists. split; [reflexivity|]. simpl. split; [done|].
    split; [done|]. split; [done|]. split.
    + intros name k. apply ns_lookup_open.
    + exists []. split; [by rewrite app_nil_r|].
      intros p Hp. by apply elem_of_nil in Hp.
Qed.

(** The run of an image request that the network answers with an ok
    response, and what the image namespace has once the puts have
    landed. *)
Lemma image_miss_stored request w r :
  origin (url request) = location_origin →
  classify request = Image →
  ns_lookup (caches w) IMAGE_CACHE_NAME (descriptor request) = None →
  net (fetches w) request = Some r →
  ok r = true →
  storable request r = true →
  unrivalled IMAGE_CACHE_NAME (descriptor request) r w →
  ∃ w', on_fetch location_origin net request w = (RespondWith (Normal r), w')
        ∧ ∀ order, completion_order order w' →
                   ns_lookup (settled_in order (caches w')) IMAGE_CACHE_NAME
                     (descriptor request) = Some r.
Proof.
  intros Ho [Hm Hd]%classify_Image Hmiss Hnet Hok Hs Hun.
  unfold on_fetch. rewrite (same_origin_eqb _ _ Ho), Hm, Hd. run_handler.
  rewrite ns_lookup_open, Hmiss. simpl. rewrite Hnet. simpl. rewrite Hok. simpl.
  eexists. split; [reflexivity|]. intros order Hord.
  unfold completion_order in Hord. simpl in Hord. rewrite Hs in Hord.
  apply (issued_put_settles _ _ _ _ (pending w));
    [apply ns_find_open_same|exact Hun|exact Hord].
Qed.

(** X5: an image fetched once is served from the cache afterwards: when
    the network answered with an ok response whose put the host accepts
    (the method is GET, the status is not 206, there is no [Vary: *]),
    and no put in flight rivalled it, then, once the puts have landed,
    in whatever order, the same request gets the same response without
    any fetch, whatever the network has become. *)
Theorem image_fetched_once request w r :
  origin (url request) = location_origin →
  classify request = Image →
  ns_lookup (caches w) IMAGE_CACHE_NAME (descriptor request) = None →
  net (fetches w) request = Some r →
  ok r = true →
  method request = "GET" → status r ≠ 206 → vary_star r = false →
  unrivalled IMAGE_CACHE_NAME (descriptor request) r w →
  ∃ w1, on_fetch location_origin net request w = (RespondWith (Normal r), w1)
        ∧ ∀ order net', completion_order order w1 →
            ∃ w2,
              on_fetch location_origin net' request (landed_in order w1)
              = (RespondWith (Normal r), w2)
              ∧ fetches w2 = fetches w1
              ∧ trace w2 = trace w1 ++ [EvOpen IMAGE_CACHE_NAME;
                                         EvCacheMatch IMAGE_CACHE_NAME request].
Proof.
  intros Ho Hc Hmiss Hnet Hok Hget Hst Hv Hun.
  destruct (image_miss_stored request w r Ho Hc Hmiss Hnet Hok
              (storable_true _ _ Hget Hst Hv) Hun)
    as (w1 & Hrun & Hstored).
  exists w1. split; [done|]. intros order net' Hord.
  apply classify_Image in Hc as [Hm Hd].
  unfold on_fetch. rewrite (same_origin_eqb _ _ Ho), Hm, Hd. run_handler.
  rewrite ns_lookup_open, (Hstored order Hord). simpl.
  eexists. split; [reflexivity|]. simpl. split; [done|].
  by rewrite <- app_assoc.
Qed.

Lemma store_match_put name k r cs :
  is_Some (ns_find name cs) →
  (∀ n c, (n, c) ∈ cs → n ≠ name → c !! k = None) →
  store_match k (store_put name k r cs) = Some r.
Proof.
  induction cs as [|[n c] cs IH]; intros [c0 Hc0] Hothers; [done|].
  simpl in *. destruct (String.eqb_spec n name) as [->|Hne]; simpl.
  - by rewrite lookup_insert_eq.
  - rewrite (Hothers n c) by (done || left). apply IH; [eauto|].
    intros n' c' Hin. apply Hothers. by right.
Qed.

Lemma elem_of_store_open name cs n c :
  (n, c) ∈ store_open name cs → (n, c) ∈ cs ∨ n = name.
Proof.
  unfold store_open. destruct (ns_find name cs); [by left|].
  intros [H|H]%elem_of_app; [by left|right].
  apply list_elem_of_singleton in H. by injection H.
Qed.

Lemma ns_find_elem_of name cs c :
  ns_find name cs = Some c → (name, c) ∈ cs.
Proof.
  induction cs as [|[n c'] cs IH]; simpl; [done|].
  destruct (String.eqb_spec n name) as [->|_].
  - intros [= ->]. left.
  - intros H. right. by apply IH.
Qed.

(** X6: a page seen online is there offline: after a GET navigation
    answered with an ok response whose put the host accepts (the status
    is not 206, there is no [Vary: *]), on a store with no put in flight
    and where no namespace other than the static one has an entry for
    the request, the same navigation with the network down gets that
    very response, once the put has landed. *)
Theorem navigation_online_then_offline request w r :
  origin (url request) = location_origin →
  classify request = Navigation →
  net (fetches w) request = Some r →
  ok r = true →
  method request = "GET" → status r ≠ 206 → vary_star r = false →
  pending w = [] →
  (∀ n c, (n, c) ∈ caches w → n ≠ CACHE_NAME → c !! descriptor request = None) →
  ∃ w1, on_fetch location_origin net request w = (RespondWith (Normal r), w1)
        ∧ ∀ order net', completion_order order w1 →
                        net' (fetches w1) request = None →
                        ∃ w2, on_fetch location_origin net' request
                                (landed_in order w1)
                              = (RespondWith (Normal r), w2).
Proof.
  intros Ho Hc%classify_Navigation Hnet Hok Hget Hst Hv Hquiet Hothers.
  unfold on_fetch. rewrite (same_origin_eqb _ _ Ho), Hc. run_handler.
  rewrite Hnet. simpl. rewrite Hok. simpl.
  eexists. split; [reflexivity|]. intros order net' Hord Hdown.
  unfold completion_order in Hord. simpl in Hord, Hdown.
  rewrite (storable_true _ _ Hget Hst Hv), Hquiet in Hord. simpl in Hord.
  apply Permutation_singleton_r in Hord as ->.
  unfold landed_in, settled_in. simpl.
  rewrite Hdown. simpl. unfold land. simpl.
  rewrite store_match_put.
  - simpl. eauto.
  - apply ns_find_open_same.
  - intros n c Hin Hn. apply elem_of_store_open in Hin as [Hin|Hin]; [eauto|done].
Qed.

(** X7: once install has fulfilled, no navigation that fails on the
    network gets the synthesized 503: the offline page is in the manifest,
    so the promise settles to a stored response, the entry of the request
    or else that of the offline page. *)
Theorem offline_page_after_install w :
  (∀ i u, STATIC_CACHE_URLS location_origin !! i = Some u →
          ∃ r, net (fetches w + i) (new_Request u) = Some r ∧ ok r = true) →
  ∃ w', on_install location_origin net w = (Normal tt, w')
        ∧ ∀ net' request,
            origin (url request) = location_origin →
            classify request = Navigation →
            net' (fetches w') request = None →
            ∃ r w2,
              on_fetch location_origin net' request w' = (RespondWith (Normal r), w2)
              ∧ ∃ n c, (n, c) ∈ caches w'
                       ∧ (c !! descriptor request = Some r
                          ∨ c !! descriptor (new_Request
                                               (resolve location_origin OFFLINE_URL))
                             = Some r).
Proof.
  intros Hok.
  destruct (install_fills_manifest location_origin net _ w Hok)
    as (w' & Hrun & Hall).
  exists w'. split; [exact Hrun|].
  intros net' request Ho Hc%classify_Navigation Hdown.
  destruct (Hall (resolve location_origin OFFLINE_URL)) as [page Hpage].
  { unfold STATIC_CACHE_URLS. do 6 right. left. }
  unfold ns_lookup in Hpage.
  destruct (ns_find CACHE_NAME (caches w')) as [c|] eqn:Hfind; [|done].
  apply ns_find_elem_of in Hfind.
  destruct (store_match_is_Some _ _ _ _ _ Hfind Hpage) as [page' Hm].
  unfold on_fetch. rewrite (same_origin_eqb _ _ Ho), Hc. run_handler.
  rewrite Hdown. simpl.
  destruct (store_match (descriptor request) (caches w')) as [r|] eqn:Hreq; simpl.
  - exists r. eexists. split; [reflexivity|].
    apply store_match_Some in Hreq as (n' & c' & ? & ?). eauto 6.
  - rewrite Hm. simpl. exists page'. eexists. split; [reflexivity|].
    apply store_match_Some in Hm as (n' & c' & ? & ?). eauto 6.
Qed.


(** X9: what one run of the fetch handler does to the world.  It issues
    at most one fetch and calls at most one put; a put is for the request
    itself, carries the network's ok response to it, and is addressed to
    the image namespace for an image request and to the static namespace
    otherwise; the write is in flight afterwards exactly when the host
    accepts the put.  No namespace is deleted and no entry is written by
    the run itself: a request to another origin leaves the storage as it
    is, an image request opens the image namespace, creating it when it
    is absent, even when it writes nothing, and any other request opens
    the static namespace exactly when it calls a put. *)
Theorem fetch_handler_footprint request w out w' :
  on_fetch location_origin net request w = (out, w') →
  ∃ t,
    trace w' = trace w ++ t
    ∧ (fetches w' ≤ S (fetches w))%nat
    ∧ (puts_of t = []
       ∨ ∃ r, puts_of t = [EvPut (match classify request with
                                  | Image => IMAGE_CACHE_NAME
                                  | _ => CACHE_NAME
                                  end) request r]
              ∧ net (fetches w) request = Some r ∧ ok r = true)
    ∧ pending w' = pending w ++ flat_map in_flight t
    ∧ caches w' =
        if bool_decide (origin (url request) = location_origin) then
          match classify request with
          | Image => store_open IMAGE_CACHE_NAME (caches w)
          | _ => if bool_decide (puts_of t = []) then caches w
                 else store_open CACHE_NAME (caches w)
          end
        else caches w.
Proof.
  unfold on_fetch, classify.
  destruct (String.eqb_spec (origin (url request)) location_origin) as [Ho|Ho];
    simpl.
  2: { intros [= <- <-]. exists []. rewrite bool_decide_eq_false_2 by done.
       simpl. rewrite !app_nil_r. split; [done|]. split; [lia|].
       split; [by left|]. done. }
  rewrite bool_decide_eq_true_2 by done.
  destruct (String.eqb (mode request) "navigate");
    [|destruct (String.eqb (destination request) "image")]; run_handler.
  - destruct (net (fetches w) request) as [r|] eqn:Hnet; simpl.
    + destruct (ok r) eqn:Hok; simpl; intros [= <- <-]; simpl; footprint.
    + destruct (store_match (descriptor request) (caches w)); simpl;
        [|destruct (store_match _ (caches w)); simpl];
        intros [= <- <-]; simpl; footprint.
  - rewrite ns_lookup_open.
    destruct (ns_lookup (caches w) IMAGE_CACHE_NAME (descriptor request)); simpl.
    + intros [= <- <-]; simpl. footprint.
    + destruct (net (fetches w) request) as [r|] eqn:Hnet; simpl;
        [destruct (ok r) eqn:Hok; simpl|]; intros [= <- <-]; simpl; footprint.
  - destruct (store_match (descriptor request) (caches w)); simpl.
    + intros [= <- <-]; simpl. footprint.
    + destruct (net (fetches w) request) as [r|] eqn:Hnet; simpl;
        [destruct (ok r) eqn:Hok; simpl|]; intros [= <- <-]; simpl; footprint.
Qed.

End FetchEffects.

(** ** The page script: debounce *)

Section DebounceFacts.
Import Utils.
Context {A : Type}.
Variable wait : nat.
Implicit Types (d : Debounced A) (acts : list (Action A)).

Lemma debounce_inv_invoke d args :
  debounce_inv wait d → debounce_inv wait (executedFunction wait args d).
Proof.
  intros Hinv. right. exists (next_id d), (now d), args. simpl.
  assert (clearTimeout (timeout d) (timers d) = ∅) as ->.
  { destruct Hinv as [[-> _]|(id & t0 & a & -> & -> & _)]; simpl.
    - destruct (timeout d); simpl; [apply delete_empty|done].
    - apply delete_singleton_eq. }
  rewrite insert_empty, last_snoc, length_app. simpl.
  repeat split; try done.
  destruct Hinv as [[_ H]|(_ & _ & _ & _ & _ & _ & H)]; lia.
Qed.

Lemma debounce_inv_elapse d dt :
  debounce_inv wait d → debounce_inv wait (elapse dt d).
Proof. intros Hinv. exact Hinv. Qed.

(** A timer that runs is the one of the latest invocation. *)
Lemma debounce_fire_inv d id d' :
  debounce_inv wait d →
  fire id d = Some d' →
  ∃ t0 args,
    last (invocations d) = Some (t0, args)
    ∧ timeout d = Some id
    ∧ (t0 + wait ≤ now d)%nat
    ∧ d' = {| timeout := timeout d; timers := ∅; next_id := next_id d;
              now := now d; invocations := invocations d;
              calls := calls d ++ [(now d, args)] |}
    ∧ (List.length (calls d) < List.length (invocations d))%nat.
Proof.
  intros Hinv Hfire. unfold fire in Hfire.
  destruct Hinv as [[Hts _]|(id0 & t0 & a & Hts & Hto & Hlast & Hlen)];
    rewrite Hts in Hfire.
  - by rewrite lookup_empty in Hfire.
  - destruct (decide (id0 = id)) as [->|Hne].
    + rewrite lookup_singleton_eq in Hfire.
      destruct (Nat.leb_spec (t0 + wait) (now d)) as [Hdue|Hdue]; [|done].
      injection Hfire as <-. exists t0, a. unfold later. simpl.
      rewrite Hto. simpl. rewrite delete_singleton_eq, delete_empty. done.
    + by rewrite lookup_singleton_ne in Hfire.
Qed.

Lemma debounce_inv_fire d id d' :
  debounce_inv wait d → fire id d = Some d' → debounce_inv wait d'.
Proof.
  intros Hinv Hfire.
  destruct (debounce_fire_inv d id d' Hinv Hfire)
    as (t0 & a & _ & _ & _ & -> & Hlen).
  left. simpl. split; [done|]. rewrite length_app. simpl. lia.
Qed.

Lemma debounce_inv_run acts d d' :
  debounce_inv wait d → run wait acts d = Some d' → debounce_inv wait d'.
Proof.
  revert d. induction acts as [|[args|dt|id] acts IH]; intros d Hinv Hrun;
    simpl in Hrun.
  - by injection Hrun as <-.
  - apply (IH _ (debounce_inv_invoke d args Hinv) Hrun).
  - apply (IH _ (debounce_inv_elapse d dt Hinv) Hrun).
  - destruct (fire id d) as [d1|] eqn:Hfire; [|done].
    apply (IH _ (debounce_inv_fire d id d1 Hinv Hfire) Hrun).
Qed.

Lemma debounce_inv_init : debounce_inv wait (@debounce A).
Proof. left. simpl. split; [done|lia]. Qed.

(** X10: whatever the invocations, the time that passes and the timers
    that run, the debounced function keeps at most one timer set: the one
    [timeout] refers to, set by the latest invocation, carrying its
    arguments and due [wait] after it; and [func] has been called fewer
    times than the function was invoked while a timer is set, and never
    more often. *)
Theorem debounce_one_timer acts d :
  run wait acts debounce = Some d →
  (∀ id due args,
     timers d !! id = Some (due, args) →
     timeout d = Some id
     ∧ (∃ t0, last (invocations d) = Some (t0, args) ∧ due = (t0 + wait)%nat)
     ∧ (∀ id', is_Some (timers d !! id') → id' = id)
     ∧ (List.length (calls d) < List.length (invocations d))%nat)
  ∧ (List.length (calls d) ≤ List.length (invocations d))%nat.
Proof.
  intros Hrun.
  destruct (debounce_inv_run acts _ d debounce_inv_init Hrun)
    as [[Hts Hlen]|(id0 & t0 & a & Hts & Hto & Hlast & Hlen)].
  - split; [|done]. intros id due args H. by rewrite Hts, lookup_empty in H.
  - split; [|lia]. intros id due args H. rewrite Hts in H.
    apply lookup_singleton_Some in H as [-> [= <- <-]].
    split; [done|]. split; [eauto|]. split; [|done].
    intros id' [x Hx]. rewrite Hts in Hx.
    by apply lookup_singleton_Some in Hx as [-> _].
Qed.

(** X11: when a timer of the debounced function runs, [func] is called
    once, with the arguments of the latest invocation, [wait] or more
    after that invocation, and no timer is left set. *)
Theorem debounce_delivers_latest acts d id d' :
  run wait acts debounce = Some d →
  fire id d = Some d' →
  ∃ t0 args,
    last (invocations d) = Some (t0, args)
    ∧ calls d' = calls d ++ [(now d, args)]
    ∧ (t0 + wait ≤ now d)%nat
    ∧ timers d' = ∅
    ∧ invocations d' = invocations d.
Proof.
  intros Hrun Hfire.
  destruct (debounce_fire_inv d id d'
              (debounce_inv_run acts _ d debounce_inv_init Hrun) Hfire)
    as (t0 & a & Hlast & _ & Hdue & -> & _).
  exists t0, a. done.
Qed.

(** X12: while invocations keep coming less than [wait] apart, [func]
    is not called: sooner than [wait] after the latest invocation no
    timer of the function can run. *)
Theorem debounce_quiet_during_burst acts d t0 args id :
  run wait acts debounce = Some d →
  last (invocations d) = Some (t0, args) →
  (now d < t0 + wait)%nat →
  fire id d = None.
Proof.
  intros Hrun Hlast Hsoon.
  destruct (fire id d) as [d'|] eqn:Hfire; [|done].
  destruct (debounce_fire_inv d id d'
              (debounce_inv_run acts _ d debounce_inv_init Hrun) Hfire)
    as (t1 & a1 & Hlast' & _ & Hdue & _).
  rewrite Hlast in Hlast'. injection Hlast' as <- <-. lia.
Qed.

End DebounceFacts.

(** ** The page script: class lists *)

Section DomFacts.
Import Dom.
Implicit Types (e : Element) (l tokens : list string) (c t : string).

Lemma elem_of_add_token t l c : c ∈ add_token t l ↔ c = t ∨ c ∈ l.
Proof.
  unfold add_token. case_bool_decide as Hin.
  - split; [by right|]. by intros [->|?].
  - rewrite elem_of_app, list_elem_of_singleton. tauto.
Qed.

Lemma elem_of_add_tokens tokens l c :
  c ∈ fold_left (fun l t => add_token t l) tokens l ↔ c ∈ tokens ∨ c ∈ l.
Proof.
  revert l. induction tokens as [|t tokens IH]; intros l; simpl.
  - split; [by right|]. intros [H|H]; [by apply elem_of_nil in H|done].
  - rewrite IH, elem_of_add_token, elem_of_cons. tauto.
Qed.

Lemma contains_add tokens e c :
  classList_contains c (classList_add tokens e)
  = bool_decide (c ∈ tokens) || classList_contains c e.
Proof.
  unfold classList_contains, classList_add. simpl.
  apply eq_true_iff_eq. rewrite orb_true_iff, !bool_decide_eq_true.
  apply elem_of_add_tokens.
Qed.

Lemma contains_remove tokens e c :
  classList_contains c (classList_remove tokens e)
  = negb (bool_decide (c ∈ tokens)) && classList_contains c e.
Proof.
  unfold classList_contains, classList_remove. simpl.
  apply eq_true_iff_eq.
  rewrite andb_true_iff, negb_true_iff, !bool_decide_eq_true,
    bool_decide_eq_false, list_elem_of_In, filter_In, <- list_elem_of_In,
    negb_true_iff, bool_decide_eq_false.
  tauto.
Qed.

Lemma add_token_present t l : t ∈ l → add_token t l = l.
Proof. intros H. unfold add_token. by rewrite bool_decide_eq_true_2. Qed.

Lemma filter_all {A} (f : A → bool) (l : list A) :
  (∀ x, x ∈ l → f x = true) → List.filter f l = l.
Proof.
  induction l as [|x l IH]; intros H; simpl; [done|].
  rewrite (H x) by left. f_equal. apply IH. intros y Hy. apply H. by right.
Qed.

Lemma contains_setAttribute name value e c :
  classList_contains c (setAttribute name value e) = classList_contains c e.
Proof. reflexivity. Qed.

Lemma contains_style_set prop value e c :
  classList_contains c (style_set prop value e) = classList_contains c e.
Proof. reflexivity. Qed.

Lemma attributes_add tokens e : attributes (classList_add tokens e) = attributes e.
Proof. reflexivity. Qed.

Lemma attributes_remove tokens e :
  attributes (classList_remove tokens e) = attributes e.
Proof. reflexivity. Qed.

Lemma attributes_style_set prop value e :
  attributes (style_set prop value e) = attributes e.
Proof. reflexivity. Qed.

Lemma attributes_setAttribute name value e :
  attributes (setAttribute name value e) = <[name := value]> (attributes e).
Proof. reflexivity. Qed.

Lemma style_add tokens e : style (classList_add tokens e) = style e.
Proof. reflexivity. Qed.

Lemma style_remove tokens e : style (classList_remove tokens e) = style e.
Proof. reflexivity. Qed.

Lemma style_setAttribute name value e :
  style (setAttribute name value e) = style e.
Proof. reflexivity. Qed.

Lemma style_style_set prop value e :
  style (style_set prop value e) = <[prop := value]> (style e).
Proof. reflexivity. Qed.

End DomFacts.

(** Rewrites the class tests of added and removed tokens, and decides
    the membership of a literal token in a literal list. *)
Ltac class_tests :=
  repeat
    first [ rewrite contains_add | rewrite contains_remove
          | rewrite contains_setAttribute | rewrite contains_style_set
          | rewrite attributes_add | rewrite attributes_remove
          | rewrite attributes_style_set | rewrite attributes_setAttribute
          | rewrite style_add | rewrite style_remove
          | rewrite style_setAttribute | rewrite style_style_set ];
  repeat
    match goal with
    | |- context [bool_decide (?c ∈ ?l)] =>
        first
          [ rewrite (bool_decide_eq_true_2 (c ∈ l))
              by (rewrite !elem_of_cons; tauto)
          | rewrite (bool_decide_eq_false_2 (c ∈ l))
              by (rewrite !elem_of_cons, elem_of_nil; intuition discriminate) ]
    end;
  cbn [negb andb orb].

Section ToggleVisibility.
Import Dom Utils.

(** X13: [toggleVisibility] leaves the element with the classes
    opacity-100 and visible exactly when [show] is true and with
    opacity-0 and invisible exactly when it is false, whatever classes
    it had; every other class, the attributes and the inline style are as
    they were; doing it again with the same flag changes nothing; and a
    null element stays null. *)
Theorem toggleVisibility_sets_classes (e : Element) (show : bool) :
  ∃ e', toggleVisibility (Some e) show = Some e'
        ∧ classList_contains "opacity-100" e' = show
        ∧ classList_contains "visible" e' = show
        ∧ classList_contains "opacity-0" e' = negb show
        ∧ classList_contains "invisible" e' = negb show
        ∧ (∀ c, c ∉ ["opacity-100"; "visible"; "opacity-0"; "invisible"] →
                classList_contains c e' = classList_contains c e)
        ∧ attributes e' = attributes e ∧ style e' = style e
        ∧ toggleVisibility (Some e') show = Some e'
        ∧ toggleVisibility None show = None.
Proof.
  destruct show; simpl; eexists; (split; [reflexivity|]).
  - do 4 (split; [by class_tests|]). split.
    + intros c Hc. rewrite contains_add, contains_remove.
      rewrite !bool_decide_eq_false_2; [done| |];
        intros H; apply Hc; rewrite !elem_of_cons in *; tauto.
    + repeat (split; [done|]). split; [|done]. f_equal.
      unfold classList_add, classList_remove. simpl. f_equal.
      set (l := List.filter _ (classList e)).
      assert (∀ c, c ∈ l → c ∉ ["opacity-0"; "invisible"]) as Hl.
      { intros c Hc. apply list_elem_of_In, filter_In in Hc as [_ Hc].
        apply negb_true_iff, bool_decide_eq_false in Hc. done. }
      set (l1 := add_token "visible" (add_token "opacity-100" l)).
      assert (∀ c, c ∈ l1 ↔ c = "visible" ∨ c = "opacity-100" ∨ c ∈ l) as Hl1.
      { intros c. unfold l1. by rewrite !elem_of_add_token. }
      rewrite filter_all.
      * rewrite (add_token_present "opacity-100") by (apply Hl1; tauto).
        apply add_token_present. apply Hl1. tauto.
      * intros c Hc. apply negb_true_iff, bool_decide_eq_false.
        apply Hl1 in Hc as [->|[->|Hc]]; [| |by apply Hl];
          rewrite !elem_of_cons, elem_of_nil; intuition discriminate.
  - do 4 (split; [by class_tests|]). split.
    + intros c Hc. rewrite contains_remove, contains_add.
      rewrite !bool_decide_eq_false_2; [done| |];
        intros H; apply Hc; rewrite !elem_of_cons in *; tauto.
    + repeat (split; [done|]). split; [|done]. f_equal.
      unfold classList_add, classList_remove. simpl. f_equal.
      set (l1 := add_token "invisible" (add_token "opacity-0" (classList e))).
      set (l := List.filter _ l1).
      assert (∀ c, c ∈ l ↔ (c ∉ ["opacity-100"; "visible"]) ∧ c ∈ l1) as Hl.
      { intros c. unfold l.
        rewrite list_elem_of_In, filter_In, <- list_elem_of_In,
          negb_true_iff, bool_decide_eq_false. tauto. }
      assert (∀ c, c ∈ l1 ↔ c = "invisible" ∨ c = "opacity-0" ∨ c ∈ classList e)
        as Hl1.
      { intros c. unfold l1. by rewrite !elem_of_add_token. }
      assert (∀ c, c ∈ ["opacity-0"; "invisible"] → c ∈ l) as Hboth.
      { intros c Hc. apply Hl. rewrite Hl1.
        rewrite !elem_of_cons, elem_of_nil in Hc |- *.
        split; [intuition (subst; discriminate)|tauto]. }
      rewrite (add_token_present "opacity-0") by (apply Hboth; left).
      rewrite (add_token_present "invisible") by (apply Hboth; right; left).
      apply filter_all. intros c Hc. apply negb_true_iff, bool_decide_eq_false.
      by apply Hl in Hc as [Hc _].
Qed.

End ToggleVisibility.

(** ** The page script: the menu and the layout *)

Section PageFacts.
Import Dom Page.
Implicit Types (p : Page) (e : Element) (f : Element → Element).

Lemma has_class_on id f p id' c :
  has_class id' c (on id f p) =
    if decide (id = id') then
      match elements p !! id with
      | Some e => classList_contains c (f e)
      | None => false
      end
    else has_class id' c p.
Proof.
  unfold has_class, on. simpl. rewrite lookup_alter.
  case_decide as E; [subst id'|done]. by destruct (elements p !! id).
Qed.

Lemma style_of_on id f p id' prop :
  style_of id' prop (on id f p) =
    if decide (id = id') then
      match elements p !! id with
      | Some e => style (f e) !! prop
      | None => None
      end
    else style_of id' prop p.
Proof.
  unfold style_of, on. simpl. rewrite lookup_alter.
  case_decide as E; [subst id'|done]. by destruct (elements p !! id).
Qed.

Lemma attribute_of_on id f p id' name :
  attribute_of id' name (on id f p) =
    if decide (id = id') then
      match elements p !! id with
      | Some e => attributes (f e) !! name
      | None => None
      end
    else attribute_of id' name p.
Proof.
  unfold attribute_of, on. simpl. rewrite lookup_alter.
  case_decide as E; [subst id'|done]. by destruct (elements p !! id).
Qed.

Lemma elements_on id f p id' :
  elements (on id f p) !! id' =
    if decide (id = id') then f <$> elements p !! id else elements p !! id'.
Proof. unfold on. cbn [elements]. apply lookup_alter. Qed.

Lemma elements_on_is_Some id f p id' :
  is_Some (elements (on id f p) !! id') ↔ is_Some (elements p !! id').
Proof.
  unfold on. simpl. rewrite lookup_alter. case_decide as E; [subst id'|done].
  by rewrite fmap_is_Some.
Qed.

End PageFacts.

(** Decides the tests on literal ids and names that the lemmas above
    leave. *)
Ltac literal_ids :=
  repeat
    match goal with
    | |- context [decide (?a = ?b)] =>
        first [ rewrite (decide_True (P := a = b)) by reflexivity
              | rewrite (decide_False (P := a = b)) by discriminate ]
    end.

(** Reads an observation of a page through the changes made to it. *)
Ltac observe :=
  unfold Page.has_class, Page.attribute_of, Page.style_of,
    Page.set_icon, Page.set_isOpen, Page.set_currentBreakpoint,
    Page.set_innerWidth;
  cbn [Page.elements];
  repeat (rewrite elements_on; literal_ids; cbn [Page.elements]).

Section MobileMenuFacts.
Import Dom Page MobileMenu.
Implicit Types (p : Page).

Lemma open_displays p :
  is_Some (elements p !! menu) → is_Some (elements p !! menuBtn) →
  displays true (open p) ∧ isOpen (open p) = true
  ∧ currentBreakpoint (open p) = currentBreakpoint p.
Proof.
  intros [m Hm] [b Hb]. unfold open, displays, menu, menuBtn in *.
  cbn [icon on set_isOpen].
  assert (has_class "mobile-menu" "hidden"
            (on "mobile-menu" (setAttribute "aria-hidden" "false")
               (on "mobile-menu-btn" (setAttribute "aria-expanded" "true")
                  (on "mobile-menu" (classList_remove ["hidden"]) p))) = false) as H1.
  { observe. rewrite Hm. cbn [fmap option_fmap option_map]. by class_tests. }
  assert (attribute_of "mobile-menu-btn" "aria-expanded"
            (on "mobile-menu" (setAttribute "aria-hidden" "false")
               (on "mobile-menu-btn" (setAttribute "aria-expanded" "true")
                  (on "mobile-menu" (classList_remove ["hidden"]) p)))
          = Some "true") as H2.
  { observe. rewrite Hb. cbn [fmap option_fmap option_map]. class_tests.
    apply lookup_insert_eq. }
  assert (attribute_of "mobile-menu" "aria-hidden"
            (on "mobile-menu" (setAttribute "aria-hidden" "false")
               (on "mobile-menu-btn" (setAttribute "aria-expanded" "true")
                  (on "mobile-menu" (classList_remove ["hidden"]) p)))
          = Some "false") as H3.
  { observe. rewrite Hm. cbn [fmap option_fmap option_map]. class_tests.
    apply lookup_insert_eq. }
  destruct (icon p) as [i|] eqn:Hi.
  - split; [|done]. split; [exact H1|]. split; [exact H2|]. split; [exact H3|].
    intros i' [= <-]. split; by class_tests.
  - split; [|done]. split; [exact H1|]. split; [exact H2|]. split; [exact H3|].
    cbn [icon set_isOpen on]. rewrite Hi. done.
Qed.

Lemma close_displays p :
  is_Some (elements p !! menu) → is_Some (elements p !! menuBtn) →
  displays false (close p) ∧ isOpen (close p) = false
  ∧ currentBreakpoint (close p) = currentBreakpoint p.
Proof.
  intros [m Hm] [b Hb]. unfold close, displays, menu, menuBtn in *.
  cbn [icon on set_isOpen].
  assert (has_class "mobile-menu" "hidden"
            (on "mobile-menu" (setAttribute "aria-hidden" "true")
               (on "mobile-menu-btn" (setAttribute "aria-expanded" "false")
                  (on "mobile-menu" (classList_add ["hidden"]) p))) = true) as H1.
  { observe. rewrite Hm. cbn [fmap option_fmap option_map]. by class_tests. }
  assert (attribute_of "mobile-menu-btn" "aria-expanded"
            (on "mobile-menu" (setAttribute "aria-hidden" "true")
               (on "mobile-menu-btn" (setAttribute "aria-expanded" "false")
                  (on "mobile-menu" (classList_add ["hidden"]) p)))
          = Some "false") as H2.
  { observe. rewrite Hb. cbn [fmap option_fmap option_map]. class_tests.
    apply lookup_insert_eq. }
  assert (attribute_of "mobile-menu" "aria-hidden"
            (on "mobile-menu" (setAttribute "aria-hidden" "true")
               (on "mobile-menu-btn" (setAttribute "aria-expanded" "false")
                  (on "mobile-menu" (classList_add ["hidden"]) p)))
          = Some "true") as H3.
  { observe. rewrite Hm. cbn [fmap option_fmap option_map]. class_tests.
    apply lookup_insert_eq. }
  destruct (icon p) as [i|] eqn:Hi.
  - split; [|done]. split; [exact H1|]. split; [exact H2|]. split; [exact H3|].
    intros i' [= <-]. split; by class_tests.
  - split; [|done]. split; [exact H1|]. split; [exact H2|]. split; [exact H3|].
    cbn [icon set_isOpen on]. rewrite Hi. done.
Qed.

(** X14: with the menu and its button in the document, what the page
    shows of the menu agrees with [isOpen] after [open], [close] and
    [toggle], whatever it showed before, and [toggle] flips [isOpen];
    the Escape key and a click elsewhere in the document keep that
    agreement and never open the menu, and Escape leaves it closed. *)
Theorem mobile_menu_display_follows_isOpen p :
  is_Some (elements p !! menu) →
  is_Some (elements p !! menuBtn) →
  (displays true (open p) ∧ isOpen (open p) = true)
  ∧ (displays false (close p) ∧ isOpen (close p) = false)
  ∧ (displays (negb (isOpen p)) (toggle p) ∧ isOpen (toggle p) = negb (isOpen p))
  ∧ (∀ key, displays (isOpen p) p →
            displays (isOpen (on_keydown key p)) (on_keydown key p)
            ∧ (isOpen (on_keydown key p) = true → isOpen p = true)
            ∧ (key = "Escape" → isOpen (on_keydown key p) = false))
  ∧ (∀ in_menu in_menuBtn, displays (isOpen p) p →
       displays (isOpen (on_document_click in_menu in_menuBtn p))
         (on_document_click in_menu in_menuBtn p)
       ∧ (isOpen (on_document_click in_menu in_menuBtn p) = true →
          isOpen p = true)).
Proof.
  intros Hm Hb.
  destruct (open_displays p Hm Hb) as (Ho1 & Ho2 & _).
  destruct (close_displays p Hm Hb) as (Hc1 & Hc2 & _).
  split; [done|]. split; [done|]. split; [|split].
  - unfold toggle. by destruct (isOpen p).
  - intros key Hd. unfold on_keydown.
    destruct (String.eqb_spec key "Escape") as [->|Hkey]; simpl.
    + destruct (isOpen p) eqn:Hopen; simpl.
      * rewrite Hc2. done.
      * rewrite Hopen. done.
    + done.
  - intros in_menu in_btn Hd. unfold on_document_click.
    destruct (isOpen p) eqn:Hopen; simpl; [|by rewrite Hopen].
    destruct in_menu, in_btn; simpl; rewrite ?Hopen, ?Hc2; done.
Qed.

End MobileMenuFacts.

Section ResponsiveFacts.
Import Dom Page ResponsiveController.
Implicit Types (p : Page).

Ltac layout :=
  unfold updateNavigation, showMobileMenu, hideMobileMenu, showDesktopMenu,
    hideDesktopMenu, closeMobileMenu, mobileMenuBtn, mobileMenu, desktopMenu
    in *;
  cbn [currentBreakpoint on set_currentBreakpoint set_innerWidth innerWidth
       isOpen icon negb].

Lemma updateNavigation_layout p :
  is_Some (elements p !! mobileMenuBtn) →
  is_Some (elements p !! desktopMenu) →
  layout_follows (updateNavigation p)
  ∧ currentBreakpoint (updateNavigation p) = currentBreakpoint p
  ∧ innerWidth (updateNavigation p) = innerWidth p
  ∧ isOpen (updateNavigation p) = isOpen p.
Proof.
  intros [b Hb] [d Hd]. unfold layout_follows. layout.
  destruct (String.eqb (currentBreakpoint p) "mobile") eqn:Hbp;
    cbn [negb on currentBreakpoint innerWidth isOpen]; rewrite Hbp.
  - split; [|done]. repeat split; observe; rewrite ?Hb, ?Hd;
      cbn [fmap option_fmap option_map]; class_tests;
      rewrite ?lookup_insert_eq; done.
  - split; [|done]. repeat split; observe; rewrite ?Hb, ?Hd;
      cbn [fmap option_fmap option_map]; class_tests;
      rewrite ?lookup_insert_eq, ?lookup_insert_ne by discriminate;
      rewrite ?lookup_insert_eq; done.
Qed.

(** X15: with the menu button and the desktop menu in the document,
    [updateNavigation] lays the two out for the recorded breakpoint, one
    hidden and one shown; and after the resize listener has run, the
    recorded breakpoint is that of the window width (mobile below 768
    pixels, desktop from 768 on) and a layout that followed the recorded
    breakpoint still does. *)
Theorem resize_keeps_layout p :
  is_Some (elements p !! mobileMenuBtn) →
  is_Some (elements p !! desktopMenu) →
  layout_follows (updateNavigation p)
  ∧ currentBreakpoint (on_resize p)
    = (if (innerWidth p <? 768)%Z then "mobile" else "desktop")
  ∧ (layout_follows p → layout_follows (on_resize p)).
Proof.
  intros Hb Hd. split; [apply (updateNavigation_layout p Hb Hd)|].
  unfold on_resize, getCurrentBreakpoint, MOBILE_BREAKPOINT.
  destruct (String.eqb_spec
              (if (innerWidth p <? 768)%Z then "mobile" else "desktop")
              (currentBreakpoint p)) as [E|E]; cbn [negb].
  - split; [by rewrite E|done].
  - destruct (updateNavigation_layout
                (set_currentBreakpoint
                   (if (innerWidth p <? 768)%Z then "mobile" else "desktop") p))
      as (Hl & Hbp & _); [done|done|].
    split; [by rewrite Hbp|]. intros _. exact Hl.
Qed.

(** What widening the window to a desktop width does to a page that was
    laid out for mobile. *)
Lemma resize_to_desktop p width :
  currentBreakpoint p = "mobile" →
  (768 ≤ width)%Z →
  on_resize (set_innerWidth width p)
  = updateNavigation (set_currentBreakpoint "desktop" (set_innerWidth width p)).
Proof.
  intros Hbp Hw. unfold on_resize, getCurrentBreakpoint, MOBILE_BREAKPOINT.
  cbn [innerWidth set_innerWidth currentBreakpoint].
  destruct (Z.ltb_spec width 768) as [?|_]; [lia|]. by rewrite Hbp.
Qed.

Lemma resize_to_mobile p width :
  currentBreakpoint p = "desktop" →
  (width < 768)%Z →
  on_resize (set_innerWidth width p)
  = updateNavigation (set_currentBreakpoint "mobile" (set_innerWidth width p)).
Proof.
  intros Hbp Hw. unfold on_resize, getCurrentBreakpoint, MOBILE_BREAKPOINT.
  cbn [innerWidth set_innerWidth currentBreakpoint].
  destruct (Z.ltb_spec width 768) as [_|?]; [|lia]. by rewrite Hbp.
Qed.

(** X16: the mobile layout does not undo all of the desktop layout: when
    a window laid out for mobile is widened to a desktop width and then
    narrowed again, the menu button ends with [display: block] and
    without the class hidden, but with the inline [visibility: hidden]
    and [opacity: 0] and the class md:hidden that the desktop layout gave
    it. *)
Theorem menu_button_keeps_desktop_styles p wide narrow :
  is_Some (elements p !! mobileMenuBtn) →
  currentBreakpoint p = "mobile" →
  (768 ≤ wide)%Z →
  (narrow < 768)%Z →
  let p1 := on_resize (set_innerWidth wide p) in
  let p2 := on_resize (set_innerWidth narrow p1) in
  currentBreakpoint p2 = "mobile"
  ∧ style_of mobileMenuBtn "display" p2 = Some "block"
  ∧ has_class mobileMenuBtn "hidden" p2 = false
  ∧ style_of mobileMenuBtn "visibility" p2 = Some "hidden"
  ∧ style_of mobileMenuBtn "opacity" p2 = Some "0"
  ∧ has_class mobileMenuBtn "md:hidden" p2 = true.
Proof.
  intros [b Hb] Hbp Hwide Hnarrow p1 p2. unfold p2, p1.
  rewrite (resize_to_desktop p wide Hbp Hwide).
  rewrite resize_to_mobile; [|by layout|done].
  layout. cbn [String.eqb Ascii.eqb Bool.eqb negb on currentBreakpoint].
  split; [done|].
  repeat split; observe; rewrite Hb;
    cbn [fmap option_fmap option_map]; class_tests;
    rewrite ?lookup_insert_eq, ?lookup_insert_ne by discriminate;
    rewrite ?lookup_insert_eq, ?lookup_insert_ne by discriminate;
    rewrite ?lookup_insert_eq; done.
Qed.

End ResponsiveFacts.

Section MenuAcrossLayouts.
Import Dom Page.

(** X17: the layout controller hides the mobile menu without telling the
    menu controller: when the window is widened to desktop while the menu
    is open and then narrowed again, the menu is hidden but [isOpen] is
    still true, so the next press of the menu button closes what is
    already hidden, and only the press after that shows the menu. *)
Theorem menu_stays_hidden_after_layout_change p wide narrow :
  is_Some (elements p !! MobileMenu.menu) →
  is_Some (elements p !! MobileMenu.menuBtn) →
  isOpen p = true →
  currentBreakpoint p = "mobile" →
  (768 ≤ wide)%Z →
  (narrow < 768)%Z →
  let p1 := ResponsiveController.on_resize (set_innerWidth wide p) in
  let p2 := ResponsiveController.on_resize (set_innerWidth narrow p1) in
  let p3 := MobileMenu.toggle p2 in
  let p4 := MobileMenu.toggle p3 in
  (isOpen p2 = true ∧ has_class MobileMenu.menu "hidden" p2 = true)
  ∧ (isOpen p3 = false ∧ has_class MobileMenu.menu "hidden" p3 = true)
  ∧ (isOpen p4 = true ∧ has_class MobileMenu.menu "hidden" p4 = false).
Proof.
  intros Hm Hb Hopen Hbp Hwide Hnarrow p1 p2 p3 p4.
  assert (isOpen p2 = true ∧ has_class MobileMenu.menu "hidden" p2 = true
          ∧ is_Some (elements p2 !! MobileMenu.menu)
          ∧ is_Some (elements p2 !! MobileMenu.menuBtn)) as (H2 & Hh2 & Hm2 & Hb2).
  { unfold p2, p1.
    rewrite (resize_to_desktop p wide Hbp Hwide).
    rewrite resize_to_mobile; [|done|done].
    unfold ResponsiveController.updateNavigation,
      ResponsiveController.showMobileMenu, ResponsiveController.hideMobileMenu,
      ResponsiveController.showDesktopMenu, ResponsiveController.hideDesktopMenu,
      ResponsiveController.closeMobileMenu, ResponsiveController.mobileMenuBtn,
      ResponsiveController.mobileMenu, ResponsiveController.desktopMenu,
      MobileMenu.menu, MobileMenu.menuBtn in *.
    cbn [String.eqb Ascii.eqb Bool.eqb negb on currentBreakpoint
         set_currentBreakpoint set_innerWidth isOpen].
    split; [done|]. destruct Hm as [m Hm]. split.
    - observe. rewrite Hm. cbn [fmap option_fmap option_map]. by class_tests.
    - unfold set_currentBreakpoint, set_innerWidth.
      split; repeat (cbn [elements]; rewrite elements_on_is_Some);
        cbn [elements]; eauto. }
  destruct (close_displays p2 Hm2 Hb2) as ((Hh3 & _) & Hc3 & _).
  assert (p3 = MobileMenu.close p2) as Hp3
    by (unfold p3, MobileMenu.toggle; by rewrite H2).
  assert (is_Some (elements p3 !! MobileMenu.menu)
          ∧ is_Some (elements p3 !! MobileMenu.menuBtn)) as [Hm3 Hb3].
  { rewrite Hp3. unfold MobileMenu.close.
    destruct (icon _); unfold set_icon, set_isOpen; cbn [elements];
      rewrite !elements_on_is_Some; done. }
  destruct (open_displays p3 Hm3 Hb3) as ((Hh4 & _) & Ho4 & _).
  assert (p4 = MobileMenu.open p3) as Hp4.
  { unfold p4, MobileMenu.toggle. rewrite Hp3, Hc3. done. }
  split; [done|]. split; [by rewrite Hp3|]. by rewrite Hp4.
Qed.

End MenuAcrossLayouts.

(** ** The page script: the contact form *)

Section RegExpFacts.
Import RegExp.
Implicit Types (r : regex) (s : list N) (c : N).

Lemma Matches_Seq r1 r2 s :
  Matches (Seq r1 r2) s ↔ ∃ s1 s2, s = s1 ++ s2 ∧ Matches r1 s1 ∧ Matches r2 s2.
Proof.
  split.
  - inversion 1; subst. eauto.
  - intros (s1 & s2 & -> & H1 & H2). by constructor.
Qed.

Lemma Matches_Alt r1 r2 s : Matches (Alt r1 r2) s ↔ Matches r1 s ∨ Matches r2 s.
Proof.
  split.
  - inversion 1; subst; eauto.
  - intros [H|H]; [by apply MAltL|by apply MAltR].
Qed.

Lemma Matches_Class p s : Matches (Class p) s ↔ ∃ c, s = [c] ∧ p c = true.
Proof.
  split.
  - inversion 1; subst. eauto.
  - intros (c & -> & H). by constructor.
Qed.

Lemma nullable_spec r : nullable r = true ↔ Matches r [].
Proof.
  induction r as [| |p|r1 IH1 r2 IH2|r1 IH1 r2 IH2|r IH]; simpl.
  - split; [done|inversion 1].
  - split; [constructor|done].
  - split; [done|inversion 1].
  - rewrite andb_true_iff, IH1, IH2, Matches_Seq. split.
    + intros [H1 H2]. exists [], []. done.
    + intros (s1 & s2 & Hs & H1 & H2).
      destruct s1; [|done]. destruct s2; [|done]. done.
  - by rewrite orb_true_iff, IH1, IH2, Matches_Alt.
  - split; [constructor|done].
Qed.

(** A non-empty word of [r*] starts with a non-empty word of [r]. *)
Lemma Matches_Star_cons r c s :
  Matches (Star r) (c :: s) →
  ∃ s1 s2, s = s1 ++ s2 ∧ Matches r (c :: s1) ∧ Matches (Star r) s2.
Proof.
  intros H. remember (Star r) as r0 eqn:Hr. remember (c :: s) as w eqn:Hw.
  revert Hr Hw.
  induction H as [| | | | | |r' s1 s2 H1 _ H2 IH2]; try discriminate.
  intros [= ->] Hw. destruct s1 as [|c1 s1]; simpl in Hw.
  - by apply IH2.
  - injection Hw as <- <-. eauto.
Qed.

Lemma deriv_spec c r s : Matches (deriv c r) s ↔ Matches r (c :: s).
Proof.
  revert s. induction r as [| |p|r1 IH1 r2 IH2|r1 IH1 r2 IH2|r IH];
    intros s; simpl.
  - split; inversion 1.
  - split; inversion 1.
  - destruct (p c) eqn:Hp.
    + split.
      * inversion 1; subst. by constructor.
      * inversion 1; subst. constructor.
    + split; [inversion 1|]. inversion 1; subst. congruence.
  - assert (Matches (Seq (deriv c r1) r2) s ↔
            ∃ s1 s2, s = s1 ++ s2 ∧ Matches r1 (c :: s1) ∧ Matches r2 s2) as Hseq.
    { rewrite Matches_Seq. by setoid_rewrite IH1. }
    destruct (nullable r1) eqn:Hn.
    + rewrite Matches_Alt, Hseq, IH2, Matches_Seq. split.
      * intros [(s1 & s2 & -> & H1 & H2)|H2].
        -- exists (c :: s1), s2. done.
        -- exists [], (c :: s). split; [done|]. split; [|done].
           by apply nullable_spec.
      * intros ([|c1 s1] & s2 & Hs & H1 & H2); simpl in Hs.
        -- right. by rewrite Hs.
        -- injection Hs as <- ->. left. eauto.
    + rewrite Hseq, Matches_Seq. split.
      * intros (s1 & s2 & -> & H1 & H2). exists (c :: s1), s2. done.
      * intros ([|c1 s1] & s2 & Hs & H1 & H2); simpl in Hs.
        -- apply nullable_spec in H1. congruence.
        -- injection Hs as <- ->. eauto.
  - by rewrite !Matches_Alt, IH1, IH2.
  - rewrite Matches_Seq. setoid_rewrite IH. split.
    + intros (s1 & s2 & -> & H1 & H2).
      change (c :: s1 ++ s2) with ((c :: s1) ++ s2). by constructor.
    + apply Matches_Star_cons.
Qed.

(** The derivative matcher decides the language. *)
Lemma test_spec r s : test r s = true ↔ Matches r s.
Proof.
  revert r. induction s as [|c s IH]; intros r; simpl.
  - apply nullable_spec.
  - by rewrite IH, deriv_spec.
Qed.

Lemma Matches_Star_Class p s :
  Matches (Star (Class p)) s ↔ Forall (fun c => p c = true) s.
Proof.
  induction s as [|c s IH].
  - split; [constructor|constructor].
  - split.
    + intros (s1 & s2 & -> & H1 & H2)%Matches_Star_cons.
      apply Matches_Class in H1 as (c' & [= <- Hs1] & Hp).
      symmetry in Hs1. subst s1. constructor; [done|]. by apply IH.
    + inversion 1; subst. change (c :: s) with ([c] ++ s). constructor.
      * by constructor.
      * by apply IH.
Qed.

Lemma Matches_Plus_Class p s :
  Matches (Plus (Class p)) s ↔ s ≠ [] ∧ Forall (fun c => p c = true) s.
Proof.
  unfold Plus. rewrite Matches_Seq. split.
  - intros (s1 & s2 & -> & (c & -> & Hp)%Matches_Class & H2%Matches_Star_Class).
    split; [done|]. by constructor.
  - intros [Hne Hall]. destruct s as [|c s]; [done|].
    inversion Hall; subst. exists [c], s. split; [done|].
    split; [by constructor|]. by apply Matches_Star_Class.
Qed.

Lemma Matches_Char c s : Matches (Char c) s ↔ s = [c].
Proof.
  unfold Char. rewrite Matches_Class. split.
  - intros (c' & -> & H%N.eqb_eq). by subst.
  - intros ->. exists c. split; [done|]. apply N.eqb_refl.
Qed.

End RegExpFacts.

Section ContactFormFacts.
Import ContactForm.

(** The language of the e-mail expression. *)
Lemma emailRegex_shape (s : list N) :
  RegExp.test emailRegex s = true ↔
  ∃ a b c,
    s = a ++ [64%N] ++ b ++ [46%N] ++ c
    ∧ a ≠ [] ∧ b ≠ [] ∧ c ≠ []
    ∧ Forall (fun u => isWhiteSpace u = false ∧ u ≠ 64%N) (a ++ b ++ c).
Proof.
  assert (∀ l, Forall (fun u => notSpaceOrAt u = true) l ↔
               Forall (fun u => isWhiteSpace u = false ∧ u ≠ 64%N) l) as Hcls.
  { intros l. apply Forall_proper; [|done]. intros u. unfold notSpaceOrAt.
    rewrite negb_true_iff, orb_false_iff, N.eqb_neq. done. }
  rewrite test_spec. unfold emailRegex.
  rewrite Matches_Seq. split.
  - intros (a & s1 & -> & [Ha Hfa]%Matches_Plus_Class & H1).
    apply Matches_Seq in H1 as (at_ & s2 & -> & ->%Matches_Char & H2).
    apply Matches_Seq in H2 as (b & s3 & -> & [Hb Hfb]%Matches_Plus_Class & H3).
    apply Matches_Seq in H3 as (dot & c & -> & ->%Matches_Char
                                & [Hc Hfc]%Matches_Plus_Class).
    exists a, b, c. repeat split; try done.
    rewrite !Forall_app. by rewrite <- !Hcls.
  - intros (a & b & c & -> & Ha & Hb & Hc & Hall).
    rewrite !Forall_app, <- !Hcls in Hall. destruct Hall as (Hfa & Hfb & Hfc).
    exists a, ([64%N] ++ b ++ [46%N] ++ c). split; [done|].
    split; [by apply Matches_Plus_Class|].
    apply Matches_Seq. exists [64%N], (b ++ [46%N] ++ c). split; [done|].
    split; [by apply Matches_Char|].
    apply Matches_Seq. exists b, ([46%N] ++ c). split; [done|].
    split; [by apply Matches_Plus_Class|].
    apply Matches_Seq. exists [46%N], c. split; [done|].
    split; [by apply Matches_Char|by apply Matches_Plus_Class].
Qed.

(** X18: the expression that [validateField] tests e-mail addresses with
    accepts exactly the strings of the form [a@b.c] in which [a], [b]
    and [c] are non-empty and contain neither white space nor an at
    sign; so an accepted address has no white space, exactly one at sign
    and at least five code units. *)
Theorem emailRegex_accepts (s : list N) :
  (RegExp.test emailRegex s = true ↔
   ∃ a b c,
     s = a ++ [64%N] ++ b ++ [46%N] ++ c
     ∧ a ≠ [] ∧ b ≠ [] ∧ c ≠ []
     ∧ Forall (fun u => isWhiteSpace u = false ∧ u ≠ 64%N) (a ++ b ++ c))
  ∧ (RegExp.test emailRegex s = true →
     Forall (fun u => isWhiteSpace u = false) s
     ∧ count_occ N.eq_dec s 64%N = 1%nat
     ∧ (5 ≤ List.length s)%nat).
Proof.
  split; [apply emailRegex_shape|].
  intros (a & b & c & -> & Ha & Hb & Hc & Hall)%emailRegex_shape.
  rewrite !Forall_app in Hall. destruct Hall as (Hfa & Hfb & Hfc).
  assert (∀ l, Forall (fun u => isWhiteSpace u = false ∧ u ≠ 64%N) l →
               Forall (fun u => isWhiteSpace u = false) l
               ∧ count_occ N.eq_dec l 64%N = 0%nat) as Hpart.
  { intros l Hl. split.
    - eapply Forall_impl; [exact Hl|]. by intros u [? _].
    - apply count_occ_not_In. intros Hin.
      rewrite Forall_forall in Hl. apply list_elem_of_In in Hin.
      by destruct (Hl _ Hin). }
  destruct (Hpart a Hfa) as [Hwa Hca], (Hpart b Hfb) as [Hwb Hcb],
    (Hpart c Hfc) as [Hwc Hcc].
  split; [|split].
  - rewrite !Forall_app. repeat split; try done; by repeat constructor.
  - rewrite !count_occ_app, Hca, Hcb, Hcc. reflexivity.
  - rewrite !length_app. simpl.
    destruct a; [done|]. destruct b; [done|]. destruct c; [done|]. simpl. lia.
Qed.

Lemma trimStart_nil s :
  trimStart s = [] ↔ Forall (fun u => isWhiteSpace u = true) s.
Proof.
  induction s as [|c s IH]; simpl.
  - split; [constructor|done].
  - destruct (isWhiteSpace c) eqn:Hc.
    + rewrite IH. split; [by constructor|]. by inversion 1.
    + split; [done|]. inversion 1; congruence.
Qed.

Lemma trimStart_head s c t : trimStart s = c :: t → isWhiteSpace c = false.
Proof.
  induction s as [|c' s IH]; simpl; [done|].
  destruct (isWhiteSpace c') eqn:Hc; [done|]. by intros [= <- _].
Qed.

(** Trimming leaves nothing exactly of the strings of white space. *)
Lemma trim_nil s : trim s = [] ↔ Forall (fun u => isWhiteSpace u = true) s.
Proof.
  unfold trim, trimEnd. rewrite <- trimStart_nil.
  destruct (trimStart s) as [|c t] eqn:Hs; [done|].
  split; [|done]. intros H.
  assert (trimStart (rev (c :: t)) = []) as H'.
  { destruct (trimStart (rev (c :: t))); [done|]. simpl in H.
    by apply app_eq_nil in H as [_ [=]]. }
  apply trimStart_nil, Forall_rev in H'. rewrite rev_involutive in H'.
  inversion H' as [|? ? Hc _]; subst.
  apply trimStart_head in Hs. congruence.
Qed.

Lemma validateField_valid_irrelevant field errs errs' :
  fst (validateField field errs) = fst (validateField field errs').
Proof. unfold validateField. by repeat case_match. Qed.

(** X19: [validateField] accepts a field exactly when its value is not
    all white space if it is required, and, for a field of type email
    whose value is not all white space, when the trimmed value has the
    form [a@b.c] of the e-mail expression.  A rejected field gets the
    class border-red-500 and the first error element of its parent (made
    if there is none) carries the message, the one for a required field
    taking precedence; an accepted field loses the class and the first
    error element of its parent is removed.  The value of the field is
    left untrimmed. *)
Theorem validateField_decides field errs :
  let v := trim (value field) in
  let blank := Forall (fun u => isWhiteSpace u = true) (value field) in
  let valid := fst (validateField field errs) in
  let field' := fst (snd (validateField field errs)) in
  let errs' := snd (snd (validateField field errs)) in
  (valid = true ↔
     (hasAttribute "required" field = true → ¬ blank)
     ∧ (type field = "email" → ¬ blank →
        ∃ a b c,
          v = a ++ [64%N] ++ b ++ [46%N] ++ c
          ∧ a ≠ [] ∧ b ≠ [] ∧ c ≠ []
          ∧ Forall (fun u => isWhiteSpace u = false ∧ u ≠ 64%N) (a ++ b ++ c)))
  ∧ Dom.classList_contains "border-red-500" (element field') = negb valid
  ∧ value field' = value field
  ∧ (valid = true → errs' = tail errs)
  ∧ (valid = false →
     ∃ e, head errs' = Some e
          ∧ tail errs' = tail errs
          ∧ (hasAttribute "required" field = true → blank →
             textContent e = REQUIRED_MESSAGE)
          ∧ (¬ blank → textContent e = EMAIL_MESSAGE)).
Proof.
  intros v blank valid field' errs'.
  unfold valid, field', errs', validateField. fold v.
  assert (bool_decide (v = []) = true ↔ blank) as Hblank
    by (rewrite bool_decide_eq_true; apply trim_nil).
  destruct (bool_decide (v = [])) eqn:Hv.
  - assert blank as Hb by (by apply Hblank).
    destruct (hasAttribute "required" field) eqn:Hreq; simpl.
    + split; [split; [done|]; intros [H _]; by destruct H|].
      split; [by class_tests|]. split; [done|]. split; [done|]. intros _.
      destruct errs as [|e0 rest]; simpl; eexists; (split; [reflexivity|]);
        (split; [reflexivity|]); split; done.
    + rewrite andb_false_r. simpl.
      split; [split; [|done]; intros _; split; done|].
      split; [by class_tests|]. split; [done|]. split; [|done].
      intros _. by destruct errs.
  - assert (¬ blank) as Hb by (intros H; apply Hblank in H; done).
    rewrite andb_false_r. simpl. rewrite andb_true_r.
    destruct (String.eqb_spec (type field) "email") as [Hty|Hty]; simpl.
    + destruct (RegExp.test emailRegex v) eqn:Hre; simpl.
      * split; [split; [|done]; intros _; split; [done|]; intros _ _;
                  by apply emailRegex_shape|].
        split; [by class_tests|]. split; [done|]. split; [|done].
        intros _. by destruct errs.
      * split.
        { split; [done|]. intros [_ H]. specialize (H Hty Hb).
          apply emailRegex_shape in H. congruence. }
        split; [by class_tests|]. split; [done|]. split; [done|]. intros _.
        destruct errs as [|e0 rest]; simpl; eexists; (split; [reflexivity|]);
          (split; [reflexivity|]); split; done.
    + split; [split; [|done]; intros _; split; done|].
      split; [by class_tests|]. split; [done|]. split; [|done].
      intros _. by destruct errs.
Qed.

Lemma validateField_frame field errs :
  value (fst (snd (validateField field errs))) = value field
  ∧ parent (fst (snd (validateField field errs))) = parent field
  ∧ Dom.classList_contains "border-red-500"
      (element (fst (snd (validateField field errs))))
    = negb (fst (validateField field errs)).
Proof.
  unfold validateField.
  repeat case_match; simpl; repeat split; class_tests; try done.
Qed.

Lemma forEach_validate_spec {Doc} error_elements set_error_elements
    (fields : list Field) (isValid0 : bool) (doc : Doc) isValid fields' doc' :
  forEach_validate error_elements set_error_elements fields isValid0 doc
  = Some (isValid, (fields', doc')) →
  (isValid = true ↔
     isValid0 = true ∧ Forall (fun f => fst (validateField f []) = true) fields)
  ∧ List.length fields' = List.length fields
  ∧ (∀ i f, fields !! i = Some f →
            ∃ f', fields' !! i = Some f'
                  ∧ value f' = value f
                  ∧ Dom.classList_contains "border-red-500" (element f')
                    = negb (fst (validateField f []))).
Proof.
  revert isValid0 doc isValid fields' doc'.
  induction fields as [|f fields IH]; intros isValid0 doc isValid fields' doc'.
  - simpl. intros [= <- <- <-]. split; [|split; [done|by intros i f H]].
    split; [by intros ->|by intros [-> _]].
  - cbn [forEach_validate]. unfold validateField_in.
    destruct (error_elements f doc) as [errs|]; [|done].
    destruct (validateField f errs) as [valid [f1 errs1]] eqn:Hf.
    destruct (forEach_validate _ _ fields _ _) as [[isValid1 [rest1 doc1]]|] eqn:Hrest;
      [|done].
    intros [= <- <- <-].
    destruct (IH _ _ _ _ _ Hrest) as (IHv & IHl & IHf).
    assert (fst (validateField f []) = valid) as Hvalid.
    { rewrite (validateField_valid_irrelevant f [] errs). by rewrite Hf. }
    destruct (validateField_frame f errs) as (Hval & _ & Hcls).
    rewrite Hf in Hval, Hcls. simpl in Hval, Hcls.
    split; [|split].
    + rewrite IHv, Forall_cons, Hvalid. destruct valid; simpl; [tauto|].
      split; [by intros [? _]|by intros [_ [? _]]].
    + simpl. by rewrite IHl.
    + intros [|i] g Hg; simpl in *.
      * injection Hg as <-. exists f1. by rewrite Hvalid.
      * by apply IHf.
Qed.

Lemma forEach_validate_completes {Doc} error_elements set_error_elements
    (fields : list Field) (isValid0 : bool) (doc : Doc) :
  (∀ f d, f ∈ fields → is_Some (error_elements f d)) →
  is_Some (forEach_validate error_elements set_error_elements fields isValid0 doc).
Proof.
  revert isValid0 doc. induction fields as [|f fields IH]; intros isValid0 doc H.
  - simpl. eauto.
  - cbn [forEach_validate]. unfold validateField_in.
    destruct (H f doc) as [errs ->]; [left|].
    destruct (validateField f errs) as [valid [f1 errs1]].
    destruct (IH (if negb valid then false else isValid0)
                (set_error_elements f errs1 doc)) as [[isValid1 [rest1 doc1]] ->].
    + intros g d Hg. apply H. by right.
    + eauto.
Qed.

(** X20: the validation loop of [handleSubmit] goes through every field
    without stopping at the first that fails, in a document of any shape
    (whatever error elements the searches under the parents of the
    fields find, nested parents included).  When the loop completes, the
    submission proceeds exactly when every field is valid, and every
    field, not only the first invalid one, has the class border-red-500
    exactly when it is invalid, with its value as it was; and the loop
    completes whenever each field has a parent element when it is
    validated. *)
Theorem validateAll_validates_every_field {Doc}
    (error_elements : Field → Doc → option (list ErrorElement))
    (set_error_elements : Field → list ErrorElement → Doc → Doc)
    (fields : list Field) (doc : Doc) :
  (∀ isValid fields' doc',
     validateAll error_elements set_error_elements fields doc
     = Some (isValid, (fields', doc')) →
     (isValid = true ↔ Forall (fun f => fst (validateField f []) = true) fields)
     ∧ List.length fields' = List.length fields
     ∧ (∀ i f, fields !! i = Some f →
               ∃ f', fields' !! i = Some f'
                     ∧ value f' = value f
                     ∧ Dom.classList_contains "border-red-500" (element f')
                       = negb (fst (validateField f []))))
  ∧ ((∀ f d, f ∈ fields → is_Some (error_elements f d)) →
     is_Some (validateAll error_elements set_error_elements fields doc)).
Proof.
  split.
  - intros isValid fields' doc' Hrun.
    destruct (forEach_validate_spec _ _ _ _ _ _ _ _ Hrun) as (Hv & Hl & Hf).
    split; [|done]. rewrite Hv. tauto.
  - apply forEach_validate_completes.
Qed.

End ContactFormFacts.

(** ** The page script: the highlighted navigation link *)

Section ScrollFacts.
Import Dom ScrollEffects.
Implicit Types (scrollY : QArith_base.Q) (s : PageSection) (st : State).

Lemma current_section_unreached scrollY (l : list PageSection) (acc : string) :
  Forall (fun t => reached scrollY t = false) l →
  fold_left (fun current section =>
               if reached scrollY section then id section else current) l acc
  = acc.
Proof.
  revert acc. induction l as [|t l IH]; intros acc H; simpl; [done|].
  inversion H as [|? ? Ht Hl]; subst. rewrite Ht. by apply IH.
Qed.

(** A section further down is reached only if the ones above it are. *)
Lemma reached_mono scrollY s t :
  (offsetTop s ≤ offsetTop t)%Z → reached scrollY t = true → reached scrollY s = true.
Proof.
  unfold reached. rewrite !QArith_base.Qle_bool_iff. intros Hle Ht.
  eapply QArith_base.Qle_trans; [|exact Ht].
  rewrite <- QArith_base.Zle_Qle. lia.
Qed.

(** X21: the section that [updateActiveNavigation] takes as current is
    the last one, in document order, whose top less 100 pixels the scroll
    position has reached, and none (the empty id) when no section is
    reached.  When the sections are in the order of their tops, it is the
    reached section whose successor, if any, is not reached. *)
Theorem current_section_is_last_reached scrollY (sections : list PageSection) :
  (Forall (fun t => reached scrollY t = false) sections →
   current_section scrollY sections = "")
  ∧ (∀ before s after,
       sections = before ++ s :: after →
       reached scrollY s = true →
       Forall (fun t => reached scrollY t = false) after →
       current_section scrollY sections = id s)
  ∧ ((∀ i j a b, (i < j)%nat → sections !! i = Some a → sections !! j = Some b →
                   (offsetTop a ≤ offsetTop b)%Z) →
     ∀ before s after,
       sections = before ++ s :: after →
       reached scrollY s = true →
       (∀ t, head after = Some t → reached scrollY t = false) →
       current_section scrollY sections = id s).
Proof.
  assert (∀ before s after,
       sections = before ++ s :: after →
       reached scrollY s = true →
       Forall (fun t => reached scrollY t = false) after →
       current_section scrollY sections = id s) as Hlast.
  { intros before s after -> Hs Hafter. unfold current_section.
    rewrite fold_left_app. simpl. rewrite Hs.
    by apply current_section_unreached. }
  split; [apply current_section_unreached|]. split; [exact Hlast|].
  intros Hsorted before s after Hsec Hs Hnext.
  apply (Hlast before s after Hsec Hs).
  destruct after as [|t after]; [constructor|].
  specialize (Hnext t eq_refl).
  constructor; [done|].
  rewrite Forall_forall. intros t' Ht'.
  apply list_elem_of_lookup in Ht' as [k Hk].
  destruct (reached scrollY t') eqn:Hr; [|done].
  assert (offsetTop t ≤ offsetTop t')%Z as Hle.
  { apply (Hsorted (List.length before + 1)%nat (List.length before + 2 + k)%nat);
      [lia| |]; rewrite Hsec.
    - rewrite lookup_app_r by lia.
      replace (List.length before + 1 - List.length before)%nat with 1%nat by lia.
      done.
    - rewrite lookup_app_r by lia.
      replace (List.length before + 2 + k - List.length before)%nat
        with (S (S k)) by lia.
      done. }
  rewrite (reached_mono scrollY t t' Hle Hr) in Hnext. done.
Qed.

Lemma restyle_highlights current (links : list NavLink) :
  highlights current (map (restyle current) links).
Proof.
  intros l' (l & -> & _)%list_elem_of_fmap. unfold restyle. simpl.
  destruct (String.eqb (href l) ("#" +:+ current)); repeat split; by class_tests.
Qed.

(** X22: [updateActiveNavigation] records the current section; when it
    differs from the recorded one every link is restyled, so that the
    link to the current section, and no other, has the classes of the
    active link; when it does not differ no link is touched; so once the
    links are styled for the recorded section they stay so.  The [href]s
    and the sections are never changed. *)
Theorem updateActiveNavigation_highlights scrollY st :
  let current := current_section scrollY (sections st) in
  let st' := updateActiveNavigation scrollY st in
  currentActiveSection st' = current
  ∧ sections st' = sections st
  ∧ map href (navLinks st') = map href (navLinks st)
  ∧ (current ≠ currentActiveSection st → highlights current (navLinks st'))
  ∧ (current = currentActiveSection st → navLinks st' = navLinks st)
  ∧ (highlights (currentActiveSection st) (navLinks st) →
     highlights (currentActiveSection st') (navLinks st')).
Proof.
  intros current st'. unfold st', updateActiveNavigation. fold current.
  destruct (String.eqb_spec current (currentActiveSection st)) as [E|E]; simpl.
  - split; [done|]. split; [done|]. split; [done|].
    split; [by intros H|]. split; [done|]. by intros H.
  - split; [done|]. split; [done|]. split.
    + rewrite map_map. by apply map_ext.
    + split; [intros _; apply restyle_highlights|].
      split; [done|]. intros _. apply restyle_highlights.
Qed.

End ScrollFacts.

(** ** Worked runs of the lifecycle and of the handlers *)

Lemma always_ok_answers (manifest : list URL) (w : World) :
  ∀ i u, manifest !! i = Some u →
         ∃ r, always page_200 (fetches w + i) (new_Request u) = Some r
              ∧ ok r = true.
Proof. intros i u _. exists page_200. split; reflexivity. Defined.

Lemma five_urls_distinct : NoDup five_urls.
Proof.
  unfold five_urls.
  repeat (apply NoDup_cons; split; [intros H; explicit_mem H|]).
  apply NoDup_nil_2.
Qed.

Lemma always_accepted_answers (manifest : list URL) (w : World) :
  ∀ i u, manifest !! i = Some u →
         ∃ r, always page_200 (fetches w + i) (new_Request u) = Some r
              ∧ addAll_accepts r = true.
Proof. intros i u _. exists page_200. split; reflexivity. Qed.

Lemma five_answers_accepted (net : nat → Request → option Response) :
  (∀ i, (i < 5)%nat → net i = always page_200 i) →
  ∀ i u, five_urls !! i = Some u →
         ∃ r, net (fetches empty_world + i) (new_Request u) = Some r
              ∧ addAll_accepts r = true.
Proof.
  intros Hnet i u Hi. exists page_200. split; [|reflexivity].
  apply lookup_lt_Some in Hi. simpl in *. by rewrite Hnet.
Qed.

(** Install of five URLs on a network that answers. *)
Lemma install_fulfils_and_fills_witness :
  ∃ w', on_install_with site (always page_200) five_urls empty_world
        = (Normal tt, w')
        ∧ ns_lookup (caches w') CACHE_NAME
            (descriptor (new_Request (mkURL site "/index.html")))
          = Some page_200.
Proof.
  destruct (install_fulfils_and_fills site (always page_200) five_urls empty_world
              five_urls_distinct (always_accepted_answers five_urls empty_world))
    as (w' & Hrun & _ & Hentry & _).
  exists w'. split; [exact Hrun|].
  apply (Hentry 1 (mkURL site "/index.html")).
  - reflexivity.
  - discriminate.
Defined.

(** Install of five URLs when the separate fetch of the offline page is
    answered with a 404, and when it fails: the 404 replaces the page
    that [addAll] had stored; the failure is logged and the page stays. *)
Lemma install_offline_page_put_witness :
  (∃ w' t, on_install_with site sixth_404 five_urls empty_world = (Normal tt, w')
           ∧ trace w' = trace empty_world ++ t
           ∧ ns_lookup (caches w') CACHE_NAME offline_key = Some page_404)
  ∧ (∃ w' t, on_install_with site sixth_fails five_urls empty_world = (Normal tt, w')
             ∧ trace w' = trace empty_world ++ t
             ∧ EvConsoleError "Failed to cache offline page:" ∈ t
             ∧ ns_lookup (caches w') CACHE_NAME offline_key = Some page_200).
Proof.
  split.
  - destruct (install_offline_page_put site sixth_404 five_urls empty_world
                five_urls_distinct)
      as (w' & t & Hrun & Ht & Hput & _).
    + apply five_answers_accepted. intros [|[|[|[|[|i]]]]] Hi; (reflexivity || lia).
    + exists w', t. split; [exact Hrun|]. split; [exact Ht|].
      apply (Hput page_404); [reflexivity|discriminate|reflexivity].
  - destruct (install_offline_page_put site sixth_fails five_urls empty_world
                five_urls_distinct)
      as (w' & t & Hrun & Ht & _ & Hfail & _).
    + apply five_answers_accepted. intros [|[|[|[|[|i]]]]] Hi; (reflexivity || lia).
    + exists w', t. split; [exact Hrun|]. split; [exact Ht|].
      destruct Hfail as (Hlog & Hkept & _); [by left|].
      split; [exact Hlog|]. apply (Hkept 4). reflexivity.
Defined.

Lemma nothing_in_flight name k r : unrivalled name k r empty_world.
Proof. intros q Hq. by apply elem_of_nil in Hq. Qed.

(** An image seen for the first time, answered with a 200. *)
Lemma image_miss_fetches_and_stores_witness :
  ∃ w', on_fetch site (always latte_fresh) image_request empty_world
        = (RespondWith (Normal latte_fresh), w')
        ∧ ∀ order, completion_order order w' →
                   ns_lookup (settled_in order (caches w')) IMAGE_CACHE_NAME
                     (descriptor image_request) = Some latte_fresh.
Proof.
  destruct (image_miss_fetches_and_stores site (always latte_fresh) image_request
              empty_world latte_fresh eq_refl eq_refl eq_refl eq_refl)
    as (w' & Hrun & _ & Hstored & _).
  exists w'. split; [exact Hrun|].
  apply Hstored; [reflexivity|reflexivity|discriminate|reflexivity|].
  apply nothing_in_flight.
Defined.

(** The same image asked for again, with the network down. *)
Lemma image_fetched_once_witness :
  ∃ w1, on_fetch site (always latte_fresh) image_request empty_world
        = (RespondWith (Normal latte_fresh), w1)
        ∧ ∃ w2, on_fetch site offline image_request (landed_in (pending w1) w1)
                = (RespondWith (Normal latte_fresh), w2)
                ∧ fetches w2 = fetches w1.
Proof.
  destruct (image_fetched_once site (always latte_fresh) image_request
              empty_world latte_fresh eq_refl eq_refl eq_refl eq_refl eq_refl
              eq_refl)
    as (w1 & Hrun & Hagain).
  - discriminate.
  - reflexivity.
  - apply nothing_in_flight.
  - exists w1. split; [exact Hrun|].
    destruct (Hagain (pending w1) offline) as (w2 & Hrun2 & Hf & _);
      [unfold completion_order; reflexivity|eauto].
Defined.

(** A page seen online, then asked for with the network down. *)
Lemma navigation_online_then_offline_witness :
  ∃ w1, on_fetch site (always page_200) page_request empty_world
        = (RespondWith (Normal page_200), w1)
        ∧ ∃ w2, on_fetch site offline page_request (landed_in (pending w1) w1)
                = (RespondWith (Normal page_200), w2).
Proof.
  destruct (navigation_online_then_offline site (always page_200) page_request
              empty_world page_200 eq_refl eq_refl eq_refl eq_refl eq_refl)
    as (w1 & Hrun & Hoffline).
  - discriminate.
  - reflexivity.
  - reflexivity.
  - intros n c H. by apply elem_of_nil in H.
  - exists w1. split; [exact Hrun|].
    apply (Hoffline (pending w1) offline);
      [unfold completion_order; reflexivity|].
    injection Hrun as <-. reflexivity.
Defined.

(** A page never seen, asked for offline after install. *)
Lemma offline_page_after_install_witness :
  ∃ w', on_install site (always page_200) empty_world = (Normal tt, w')
        ∧ ∃ r w2, on_fetch site offline page_request w'
                  = (RespondWith (Normal r), w2)
                  ∧ ∃ n c, (n, c) ∈ caches w'
                           ∧ (c !! descriptor page_request = Some r
                              ∨ c !! offline_key = Some r).
Proof.
  destruct (offline_page_after_install site (always page_200) empty_world
              (always_ok_answers (STATIC_CACHE_URLS site) empty_world))
    as (w' & Hrun & Hnav).
  exists w'. split; [exact Hrun|].
  apply (Hnav offline page_request); reflexivity.
Defined.


(** The footprint of a page request answered with a 200. *)
Lemma fetch_handler_footprint_witness :
  ∃ t, trace (snd (on_fetch site (always page_200) page_request empty_world))
       = trace empty_world ++ t
       ∧ pending (snd (on_fetch site (always page_200) page_request empty_world))
         = pending empty_world ++ flat_map in_flight t.
Proof.
  destruct (fetch_handler_footprint site (always page_200) page_request
              empty_world _ _
              (surjective_pairing
                 (on_fetch site (always page_200) page_request empty_world)))
    as (t & Ht & _ & _ & Hps & _).
  exists t. split; [exact Ht|exact Hps].
Defined.

(** ** Worked runs of the page script *)

(** Two invocations 100 ms apart with a wait of 150 ms, then 150 ms. *)
Lemma debounce_one_timer_witness :
  ∃ d, Utils.run 150 burst Utils.debounce = Some d
       ∧ (List.length (Utils.calls d) ≤ List.length (Utils.invocations d))%nat
       ∧ Utils.timeout d = Some 2%nat.
Proof.
  eexists. split; [reflexivity|].
  destruct (debounce_one_timer 150 burst _ eq_refl) as [Htimer Hlen].
  split; [exact Hlen|].
  apply (Htimer 2%nat 250%nat "second"). reflexivity.
Defined.

Lemma debounce_delivers_latest_witness :
  ∃ d d', Utils.run 150 burst Utils.debounce = Some d
          ∧ Utils.fire 2 d = Some d'
          ∧ Utils.calls d' = [(250%nat, "second")].
Proof.
  eexists. eexists. split; [reflexivity|]. split; [reflexivity|].
  destruct (debounce_delivers_latest 150 burst _ 2%nat _ eq_refl eq_refl)
    as (t0 & args & Hlast & Hcalls & _).
  rewrite Hcalls. injection Hlast as <- <-. reflexivity.
Defined.

Lemma debounce_quiet_during_burst_witness :
  ∃ d, Utils.run 150 short_burst Utils.debounce = Some d
       ∧ Utils.fire 2 d = None.
Proof.
  eexists. split; [reflexivity|].
  apply (debounce_quiet_during_burst 150 short_burst _ 100%nat "second" 2%nat);
    [reflexivity|reflexivity|simpl; lia].
Defined.

(** Showing an element that has the classes of a hidden one. *)
Lemma toggleVisibility_sets_classes_witness :
  ∃ e', Utils.toggleVisibility
          (Some (with_classes ["btn"; "opacity-0"; "invisible"])) true
        = Some e'
        ∧ Dom.classList_contains "visible" e' = true
        ∧ Dom.classList_contains "invisible" e' = false
        ∧ Dom.classList_contains "btn" e' = true.
Proof.
  destruct (toggleVisibility_sets_classes
              (with_classes ["btn"; "opacity-0"; "invisible"]) true)
    as (e' & Hrun & _ & Hv & _ & Hi & Hother & _).
  exists e'. split; [exact Hrun|]. split; [exact Hv|]. split; [exact Hi|].
  rewrite Hother; [reflexivity|].
  rewrite !elem_of_cons, elem_of_nil. intuition discriminate.
Defined.

Lemma phone_page_has_menu :
  is_Some (Page.elements phone_page !! MobileMenu.menu)
  ∧ is_Some (Page.elements phone_page !! MobileMenu.menuBtn)
  ∧ is_Some (Page.elements phone_page !! ResponsiveController.desktopMenu).
Proof. repeat split; vm_compute; eauto. Defined.

(** The menu button pressed on the phone page. *)
Lemma mobile_menu_display_follows_isOpen_witness :
  MobileMenu.displays false (MobileMenu.toggle phone_page)
  ∧ Page.isOpen (MobileMenu.toggle phone_page) = false.
Proof.
  destruct (mobile_menu_display_follows_isOpen phone_page
              (proj1 phone_page_has_menu) (proj1 (proj2 phone_page_has_menu)))
    as (_ & _ & Htoggle & _).
  exact Htoggle.
Defined.

(** The phone page turned to a width of 1024 pixels. *)
Lemma resize_keeps_layout_witness :
  Page.currentBreakpoint
    (ResponsiveController.on_resize (Page.set_innerWidth 1024 phone_page))
  = "desktop".
Proof.
  destruct (resize_keeps_layout (Page.set_innerWidth 1024 phone_page)
              (proj1 (proj2 phone_page_has_menu)) (proj2 (proj2 phone_page_has_menu)))
    as (_ & Hbp & _).
  exact Hbp.
Defined.

(** The phone page widened to 1024 pixels and narrowed to 390 again. *)
Lemma menu_button_keeps_desktop_styles_witness :
  let p1 := ResponsiveController.on_resize (Page.set_innerWidth 1024 phone_page) in
  let p2 := ResponsiveController.on_resize (Page.set_innerWidth 390 p1) in
  Page.style_of "mobile-menu-btn" "display" p2 = Some "block"
  ∧ Page.style_of "mobile-menu-btn" "visibility" p2 = Some "hidden".
Proof.
  destruct (menu_button_keeps_desktop_styles phone_page 1024 390
              (proj1 (proj2 phone_page_has_menu)) eq_refl)
    as (_ & Hd & _ & Hv & _); [lia|lia|].
  split; [exact Hd|exact Hv].
Defined.

Lemma menu_stays_hidden_after_layout_change_witness :
  let p1 := ResponsiveController.on_resize (Page.set_innerWidth 1024 phone_page) in
  let p2 := ResponsiveController.on_resize (Page.set_innerWidth 390 p1) in
  Page.isOpen p2 = true
  ∧ Page.has_class "mobile-menu" "hidden" (MobileMenu.toggle p2) = true.
Proof.
  destruct (menu_stays_hidden_after_layout_change phone_page 1024 390
              (proj1 phone_page_has_menu) (proj1 (proj2 phone_page_has_menu))
              eq_refl eq_refl)
    as ((Hopen & _) & (_ & Hhidden) & _); [lia|lia|].
  split; [exact Hopen|exact Hhidden].
Defined.

(** The address a@b.c. *)
Lemma emailRegex_accepts_witness :
  count_occ N.eq_dec short_address 64%N = 1%nat
  ∧ (5 ≤ List.length short_address)%nat.
Proof.
  destruct (proj2 (emailRegex_accepts short_address) eq_refl) as (_ & Hc & Hl).
  split; [exact Hc|exact Hl].
Defined.

(** A required e-mail field holding an address without a dot. *)
Lemma validateField_decides_witness :
  fst (ContactForm.validateField (email_field no_dot_address 0) []) = false
  ∧ ∃ e, head (snd (snd (ContactForm.validateField
                           (email_field no_dot_address 0) [])))
         = Some e
         ∧ ContactForm.textContent e = ContactForm.EMAIL_MESSAGE.
Proof.
  destruct (validateField_decides (email_field no_dot_address 0) [])
    as (_ & _ & _ & _ & Hrejected).
  split; [reflexivity|].
  destruct (Hrejected eq_refl) as (e & He & _ & _ & Hmsg).
  exists e. split; [exact He|]. apply Hmsg.
  intros Hblank. apply Forall_inv_tail, Forall_inv_tail, Forall_inv in Hblank.
  discriminate Hblank.
Defined.

(** A form of three fields of which the first and the last are invalid,
    each field with a parent of its own. *)
Lemma validateAll_validates_every_field_witness :
  (∃ fields' errors',
     ContactForm.validateAll ContactForm.flat_error_elements
       ContactForm.flat_set_error_elements sample_fields ∅
     = Some (false, (fields', errors'))
     ∧ ∃ f', fields' !! 2%nat = Some f'
             ∧ Dom.classList_contains "border-red-500" (ContactForm.element f')
               = true)
  ∧ is_Some (ContactForm.validateAll ContactForm.flat_error_elements
               ContactForm.flat_set_error_elements sample_fields ∅).
Proof.
  split.
  - destruct (ContactForm.validateAll ContactForm.flat_error_elements
                ContactForm.flat_set_error_elements sample_fields ∅)
      as [[isValid [fields' errors']]|] eqn:Hrun; [|discriminate Hrun].
    destruct (proj1 (validateAll_validates_every_field
                       ContactForm.flat_error_elements
                       ContactForm.flat_set_error_elements sample_fields ∅)
                isValid fields' errors' Hrun) as (Hvalid & _ & Hfields).
    exists fields', errors'. split.
    + destruct isValid; [|reflexivity].
      apply proj1 in Hvalid. specialize (Hvalid eq_refl).
      apply Forall_inv in Hvalid. discriminate Hvalid.
    + destruct (Hfields 2%nat (email_field [] 2) eq_refl) as (f' & Hf' & _ & Hcls).
      exists f'. split; [exact Hf'|]. rewrite Hcls. reflexivity.
  - apply (proj2 (validateAll_validates_every_field
                    ContactForm.flat_error_elements
                    ContactForm.flat_set_error_elements sample_fields ∅)).
    intros f d _. unfold ContactForm.flat_error_elements. eauto.
Defined.

(** Scrolled to 750 pixels: the second section is current. *)
Lemma current_section_is_last_reached_witness :
  ScrollEffects.current_section (QArith_base.inject_Z 750) sample_sections = "menu".
Proof.
  apply (proj1 (proj2 (current_section_is_last_reached
                         (QArith_base.inject_Z 750) sample_sections))
           [ScrollEffects.mkSection 0 "home"]
           (ScrollEffects.mkSection 800 "menu")
           [ScrollEffects.mkSection 1600 "access"]).
  - reflexivity.
  - reflexivity.
  - repeat constructor.
Defined.

Lemma updateActiveNavigation_highlights_witness :
  ScrollEffects.highlights "menu"
    (ScrollEffects.navLinks
       (ScrollEffects.updateActiveNavigation (QArith_base.inject_Z 750)
          sample_scroll)).
Proof.
  destruct (updateActiveNavigation_highlights (QArith_base.inject_Z 750)
              sample_scroll) as (_ & _ & _ & Hchanged & _).
  apply Hchanged. discriminate.
Defined.
